(** * Safe artifact paths: a shallow embedding of [packages/server/lib/util/fs.ts]

    The development follows the TypeScript module top-down: the JavaScript
    values the module handles (strings as UTF-16 code units, buffers as
    bytes), the library functions it calls ([Buffer], [path], [lodash],
    [sanitize-filename], [fs-extra]), then [ensureSafePath],
    [sanitizeToString] and [getPath] themselves.  All definitions come
    first; the lemmas and the theorems follow. *)

From Stdlib Require Import ZArith Lia Bool Ascii String.
From Stdlib Require Import DecimalString DecimalN Sorted.
From stdpp Require Import base decidable option list gmap fin_sets.

Local Open Scope Z_scope.

#[local] Set Warnings "-clear-no-such-hyp".

(* ===================================================================== *)
(** ** JavaScript strings *)
(* ===================================================================== *)

(** A JavaScript string is a sequence of UTF-16 code units; [String.length]
    counts code units. *)
Abbreviation jsstring := (list Z).

(** String literals of the source, written as Rocq strings of ASCII
    characters. *)
Definition js (s : string) : jsstring :=
  (λ a, Z.of_nat (nat_of_ascii a)) <$> list_ascii_of_string s.

Definition str_length (s : jsstring) : Z := Z.of_nat (length s).

(** Template-literal conversion of a non-negative integer, [`${num}`]. *)
Definition show_N (n : N) : jsstring :=
  js (NilZero.string_of_uint (N.to_uint n)).

(** [`${value}`] for an integer-valued number. *)
Definition show_Z (z : Z) : jsstring :=
  if z <? 0 then js "-" ++ show_N (Z.to_N (- z)) else show_N (Z.to_N z).

Definition CHAR_FORWARD_SLASH : Z := 47.
Definition CHAR_BACKWARD_SLASH : Z := 92.
Definition CHAR_DOT : Z := 46.
Definition CHAR_SPACE : Z := 32.

(** [String.prototype.split] for a separator that matches exactly one code
    unit at a time (the regular expressions of this module are character
    classes): the result always has at least one element. *)
Fixpoint split_on (sep : Z → bool) (s : jsstring) : list jsstring :=
  match s with
  | [] => [[]]
  | c :: s' =>
      if sep c then [] :: split_on sep s'
      else match split_on sep s' with
           | [] => [[c]]
           | seg :: segs => (c :: seg) :: segs
           end
  end.

(** [Array.prototype.join]. *)
Fixpoint join_with (sep : jsstring) (parts : list jsstring) : jsstring :=
  match parts with
  | [] => []
  | [p] => p
  | p :: ps => p ++ sep ++ join_with sep ps
  end.

(* ===================================================================== *)
(** ** Buffers: UTF-8 encoding and decoding *)
(* ===================================================================== *)

(** Node's [Buffer] is not part of the repository; [Buffer.from],
    [buf.slice] and [buf.toString] are modelled from Node's documented
    behaviour for the default encoding [utf8]. *)

Definition isHighSurrogate (c : Z) : bool := (0xD800 <=? c) && (c <=? 0xDBFF).
Definition isLowSurrogate (c : Z) : bool := (0xDC00 <=? c) && (c <=? 0xDFFF).

(** UTF-8 bytes of one code point. *)
Definition utf8_of_cp (c : Z) : list Z :=
  if c <? 0x80 then [c]
  else if c <? 0x800 then [0xC0 + c / 64; 0x80 + c mod 64]
  else if c <? 0x10000 then
    [0xE0 + c / 4096; 0x80 + (c / 64) mod 64; 0x80 + c mod 64]
  else
    [0xF0 + c / 262144; 0x80 + (c / 4096) mod 64;
     0x80 + (c / 64) mod 64; 0x80 + c mod 64].

Definition REPLACEMENT : Z := 0xFFFD.

(** [Buffer.from(str)] (encoding [utf8]): a surrogate pair becomes one
    four-byte sequence, a lone surrogate becomes U+FFFD. *)
Fixpoint Buffer_from (s : jsstring) : list Z :=
  match s with
  | [] => []
  | c :: s' =>
      if isHighSurrogate c then
        match s' with
        | d :: s'' =>
            if isLowSurrogate d
            then utf8_of_cp (0x10000 + (c - 0xD800) * 1024 + (d - 0xDC00))
                   ++ Buffer_from s''
            else utf8_of_cp REPLACEMENT ++ Buffer_from s'
        | [] => utf8_of_cp REPLACEMENT
        end
      else if isLowSurrogate c then utf8_of_cp REPLACEMENT ++ Buffer_from s'
      else utf8_of_cp c ++ Buffer_from s'
  end.

(** [buf.byteLength] and [Buffer.byteLength(str)]. *)
Definition byteLength (buf : list Z) : Z := Z.of_nat (length buf).
Definition Buffer_byteLength (s : jsstring) : Z := byteLength (Buffer_from s).

(** [buf.slice(0, end)]: a negative [end] counts from the end of the
    buffer, and the result is clamped to the buffer. *)
Definition Buffer_slice0 (buf : list Z) (e : Z) : list Z :=
  if e <? 0 then take (Z.to_nat (byteLength buf + e)) buf
  else take (Z.to_nat e) buf.

(** State of the UTF-8 decoder inside a multi-byte sequence: the code point
    so far, the number of continuation bytes still expected and the range
    allowed for the next byte. *)
Record Utf8Pending := {
  pend_cp : Z;
  pend_needed : nat;
  pend_lower : Z;
  pend_upper : Z
}.

Inductive Utf8Lead :=
| LeadAscii
| LeadMulti (p : Utf8Pending)
| LeadInvalid.

Definition utf8_lead (b : Z) : Utf8Lead :=
  if b <=? 0x7F then LeadAscii
  else if (0xC2 <=? b) && (b <=? 0xDF) then
    LeadMulti {| pend_cp := b - 0xC0; pend_needed := 1;
                 pend_lower := 0x80; pend_upper := 0xBF |}
  else if (0xE0 <=? b) && (b <=? 0xEF) then
    LeadMulti {| pend_cp := b - 0xE0; pend_needed := 2;
                 pend_lower := (if b =? 0xE0 then 0xA0 else 0x80);
                 pend_upper := (if b =? 0xED then 0x9F else 0xBF) |}
  else if (0xF0 <=? b) && (b <=? 0xF4) then
    LeadMulti {| pend_cp := b - 0xF0; pend_needed := 3;
                 pend_lower := (if b =? 0xF0 then 0x90 else 0x80);
                 pend_upper := (if b =? 0xF4 then 0x8F else 0xBF) |}
  else LeadInvalid.

(** The decoder of [buf.toString()]: every maximal ill-formed part of the
    input, also a sequence cut short by the end of the buffer, is replaced
    by one U+FFFD.  The result is a list of code points. *)
Fixpoint utf8_decode (st : option Utf8Pending) (bs : list Z) : list Z :=
  match bs with
  | [] => match st with None => [] | Some _ => [REPLACEMENT] end
  | b :: bs' =>
      let start (_ : unit) :=
        match utf8_lead b with
        | LeadAscii => b :: utf8_decode None bs'
        | LeadMulti p => utf8_decode (Some p) bs'
        | LeadInvalid => REPLACEMENT :: utf8_decode None bs'
        end in
      match st with
      | None => start ()
      | Some p =>
          if (pend_lower p <=? b) && (b <=? pend_upper p) then
            let cp := pend_cp p * 64 + (b - 0x80) in
            match pend_needed p with
            | O | S O => cp :: utf8_decode None bs'
            | S n => utf8_decode
                       (Some {| pend_cp := cp; pend_needed := n;
                                pend_lower := 0x80; pend_upper := 0xBF |}) bs'
            end
          else REPLACEMENT :: start ()
      end
  end.

(** UTF-16 code units of one code point. *)
Definition utf16_of_cp (c : Z) : jsstring :=
  if c <? 0x10000 then [c]
  else [0xD800 + (c - 0x10000) / 1024; 0xDC00 + (c - 0x10000) mod 1024].

(** [buf.toString()] (encoding [utf8]). *)
Definition Buffer_toString (buf : list Z) : jsstring :=
  utf8_decode None buf ≫= utf16_of_cp.

(* ===================================================================== *)
(** ** [path] (POSIX flavour) *)
(* ===================================================================== *)

(** Node's [path] module is not part of the repository; [basename],
    [dirname], [normalize] and [join] are modelled from [lib/path.js] of
    Node, in its POSIX variant. *)

Definition isPosixPathSeparator (c : Z) : bool := c =? CHAR_FORWARD_SLASH.

(** The backward loop of [path.basename]: [rs] holds the characters from
    the last one down to the first, [acc] the slice [start..end) read so
    far. *)
Fixpoint basename_scan (rs : jsstring) (matchedSlash : bool) (acc : jsstring)
  : jsstring :=
  match rs with
  | [] => acc
  | c :: rs' =>
      if isPosixPathSeparator c then
        if matchedSlash then basename_scan rs' true acc else acc
      else basename_scan rs' false (c :: acc)
  end.

(** [path.basename(p)]: trailing separators are skipped, then the
    characters back to the previous separator are the base name. *)
Definition path_basename (p : jsstring) : jsstring :=
  basename_scan (reverse p) true [].

(** The backward loop of [path.dirname]: [rs] holds the characters at
    indices [i], [i-1], ..., 1; the result is the index [end]. *)
Fixpoint dirname_scan (rs : jsstring) (i : nat) (matchedSlash : bool)
  : option nat :=
  match rs with
  | [] => None
  | c :: rs' =>
      if isPosixPathSeparator c then
        if matchedSlash then dirname_scan rs' (pred i) true else Some i
      else dirname_scan rs' (pred i) false
  end.

(** [path.dirname(p)]. *)
Definition path_dirname (p : jsstring) : jsstring :=
  match p with
  | [] => js "."
  | c :: rest =>
      let hasRoot := isPosixPathSeparator c in
      match dirname_scan (reverse rest) (length rest) true with
      | None => if hasRoot then js "/" else js "."
      | Some e =>
          if hasRoot && (e =? 1)%nat then js "//" else take e p
      end
  end.

(** One step of [normalizeString] on a whole segment; [res] is the list of
    segments kept so far, last one first. *)
Definition normalize_segment (allowAboveRoot : bool)
    (res : list jsstring) (seg : jsstring) : list jsstring :=
  if bool_decide (seg = []) || bool_decide (seg = js ".") then res
  else if bool_decide (seg = js "..") then
    match res with
    | [] => if allowAboveRoot then [js ".."] else []
    | top :: below =>
        if bool_decide (top = js "..")
        then (if allowAboveRoot then js ".." :: res else res)
        else below
    end
  else seg :: res.

(** [normalizeString(path, allowAboveRoot, '/', isPosixPathSeparator)]:
    the source scans the characters and keeps the result as a string; here
    the path is cut into its segments first. *)
Definition normalizeString (p : jsstring) (allowAboveRoot : bool) : jsstring :=
  join_with (js "/")
    (reverse (foldl (normalize_segment allowAboveRoot) []
                (split_on isPosixPathSeparator p))).

(** [path.normalize(p)]. *)
Definition path_normalize (p : jsstring) : jsstring :=
  match p with
  | [] => js "."
  | c :: _ =>
      let isAbsolute := isPosixPathSeparator c in
      let trailingSeparator :=
        match last p with
        | Some d => isPosixPathSeparator d
        | None => false
        end in
      let q := normalizeString p (negb isAbsolute) in
      match q with
      | [] => if isAbsolute then js "/"
              else if trailingSeparator then js "./" else js "."
      | _ =>
          let q' := if trailingSeparator then q ++ js "/" else q in
          if isAbsolute then js "/" ++ q' else q'
      end
  end.

(** [path.join(...args)]: empty arguments are skipped. *)
Definition path_join (args : list jsstring) : jsstring :=
  match filter (λ a, a ≠ []) args with
  | [] => js "."
  | parts => path_normalize (join_with (js "/") parts)
  end.

(* ===================================================================== *)
(** ** Values, errors and [lodash] *)
(* ===================================================================== *)

(** The values a test title can be.  [Data.titles] is declared as
    [string[]]; [sanitizeToString] allows for values that are not strings
    (the comment in the source names [null] and [undefined]).  The model
    covers the primitive values: strings, [undefined], [null], booleans and
    numbers that are integers below 10^21 in magnitude (they print in plain
    decimal notation), negative zero, [NaN] and the infinities (they print
    by name).  Objects, arrays, symbols and other numbers are not values of
    this type: [_.toString] can throw on an object, and nothing below holds
    for such a title. *)
Inductive JSNumber :=
| NumInt (z : Z)
| NumNegZero
| NumNaN
| NumInfinity
| NumNegInfinity.

Inductive JSValue :=
| VUndefined
| VNull
| VBool (b : bool)
| VNumber (n : JSNumber)
| VString (s : jsstring).

(** A thrown [Error]: the message and, for system errors, [err.code]. *)
Record JSError := {
  message : string;
  code : option string
}.

(** [_.toString(value)], modelled from lodash: [null] and [undefined] give
    the empty string, a string is returned as it is, negative zero keeps
    its sign. *)
Definition lodash_toString (value : JSValue) : jsstring :=
  match value with
  | VUndefined | VNull => []
  | VString s => s
  | VBool true => js "true"
  | VBool false => js "false"
  | VNumber (NumInt z) => show_Z z
  | VNumber NumNegZero => js "-0"
  | VNumber NumNaN => js "NaN"
  | VNumber NumInfinity => js "Infinity"
  | VNumber NumNegInfinity => js "-Infinity"
  end.

(* ===================================================================== *)
(** ** [sanitize-filename] *)
(* ===================================================================== *)

(** The npm packages [sanitize-filename] and [truncate-utf8-bytes] are not
    part of the repository; they are modelled from their published source
    ([sanitize-filename] 1.6: five replacements, then a truncation to 255
    bytes). *)

(** [illegalRe]: the character class of slash, question mark, angle
    brackets, backslash, colon, asterisk, vertical bar and double quote. *)
Definition illegalRe (c : Z) : bool :=
  bool_decide (c ∈ [47; 63; 60; 62; 92; 58; 42; 124; 34]).

(** [controlRe = /[\x00-\x1f\x80-\x9f]/g] *)
Definition controlRe (c : Z) : bool :=
  ((0x00 <=? c) && (c <=? 0x1f)) || ((0x80 <=? c) && (c <=? 0x9f)).

(** [str.replace(re, '')] for a global character class. *)
Definition remove_matching (re : Z → bool) (s : jsstring) : jsstring :=
  filter (λ c, re c = false) s.

(** [reservedRe = /^\.+$/] *)
Definition reservedRe (s : jsstring) : bool :=
  negb (bool_decide (s = [])) && forallb (λ c, c =? CHAR_DOT) s.

Definition ascii_lower (c : Z) : Z :=
  if (65 <=? c) && (c <=? 90) then c + 32 else c.

Definition isDigit (c : Z) : bool := (48 <=? c) && (c <=? 57).

(** Line terminators, which [.] does not match. *)
Definition isLineTerminator (c : Z) : bool :=
  bool_decide (c ∈ [0x0A; 0x0D; 0x2028; 0x2029]).

(** The first group of [windowsReservedRe]: what follows the device name,
    when the string starts with one. *)
Definition windows_device_rest (s : jsstring) : option jsstring :=
  let head := ascii_lower <$> take 3 s in
  if bool_decide (head ∈ [js "con"; js "prn"; js "aux"; js "nul"])
  then Some (drop 3 s)
  else if bool_decide (head ∈ [js "com"; js "lpt"]) then
    match drop 3 s with
    | d :: rest => if isDigit d then Some rest else None
    | [] => None
    end
  else None.

(** [windowsReservedRe]: a device name (con, prn, aux, nul, com0-9,
    lpt0-9, in either case), then nothing or a dot and any characters up to
    the end of the string, none of them a line terminator. *)
Definition windowsReservedRe (s : jsstring) : bool :=
  match windows_device_rest s with
  | Some [] => true
  | Some (c :: rest) =>
      (c =? CHAR_DOT) && forallb (λ d, negb (isLineTerminator d)) rest
  | None => false
  end.

(** The loop behind [windowsTrailingRe = /[\. ]+$/] on the reversed
    string. *)
Fixpoint drop_trailing (rs : jsstring) : jsstring :=
  match rs with
  | [] => []
  | c :: rs' =>
      if (c =? CHAR_DOT) || (c =? CHAR_SPACE) then drop_trailing rs' else rs
  end.

(** [truncate(string, byteLength)] of [truncate-utf8-bytes]: the longest
    prefix of whole characters within [limit] bytes; [cur] is
    [curByteLength]. *)
Fixpoint truncate_loop (s : jsstring) (cur limit : Z) : jsstring :=
  match s with
  | [] => []
  | c :: s' =>
      let single :=
        let cur' := cur + Buffer_byteLength [c] in
        if cur' =? limit then [c]
        else if limit <? cur' then []
        else c :: truncate_loop s' cur' limit in
      match s' with
      | d :: s'' =>
          if isHighSurrogate c && isLowSurrogate d then
            let cur' := cur + Buffer_byteLength [c; d] in
            if cur' =? limit then [c; d]
            else if limit <? cur' then []
            else c :: d :: truncate_loop s'' cur' limit
          else single
      | [] => single
      end
  end.

Definition truncate (s : jsstring) (limit : Z) : jsstring :=
  truncate_loop s 0 limit.

(** The inner [sanitize(input, replacement)] with the empty replacement. *)
Definition sanitize_string (input : jsstring) : jsstring :=
  let s1 := remove_matching illegalRe input in
  let s2 := remove_matching controlRe s1 in
  let s3 := if reservedRe s2 then [] else s2 in
  let s4 := if windowsReservedRe s3 then [] else s3 in
  let s5 := reverse (drop_trailing (reverse s4)) in
  truncate s5 255.

(** The exported [sanitize(input)], called without options: it throws when
    the input is not a string. *)
Definition sanitize (input : JSValue) : JSError + jsstring :=
  match input with
  | VString s => inr (sanitize_string s)
  | _ => inl {| message := "Input must be string"; code := None |}
  end.

(* ===================================================================== *)
(** ** The file system and the module state *)
(* ===================================================================== *)

(** The state the module runs in: its variable [maxSafeBytes] and the files
    on disk with their contents.  [maxSafeBytes] is a JavaScript number; it
    is read here as an integer, and [maxSafeBytes - suffix.length] and
    [maxSafeBytes -= 1] as integer arithmetic, which is what the code
    computes as long as the value is a safe integer ([safe_budget] below).
    A setting that is not an integer, or one beyond the safe integers, is
    outside the model. *)
Record World := {
  maxSafeBytes : Z;
  files : gmap (list Z) (list Z)
}.

Definition MIN_PREFIX_BYTES : Z := 64.

(** [Number(process.env.CYPRESS_MAX_SAFE_FILENAME_BYTES) || 254] for an
    absent or an integer-valued setting. *)
Definition initial_maxSafeBytes (env : option Z) : Z :=
  match env with
  | Some n => if n =? 0 then 254 else n
  | None => 254
  end.

Definition set_maxSafeBytes (w : World) (n : Z) : World :=
  {| maxSafeBytes := n; files := files w |}.

Definition ENAMETOOLONG : JSError :=
  {| message := "ENAMETOOLONG: name too long";
     code := Some "ENAMETOOLONG"%string |}.

(** [fs.pathExists(p)] *)
Definition pathExists (w : World) (p : jsstring) : bool :=
  bool_decide (is_Some (files w !! p)).

Inductive Outcome :=
| Resolved (fullPath : jsstring) (w : World)
| Failed (err : JSError) (w : World)
| OutOfFuel.

(** One activation of [ensureSafePath], up to its recursive call. *)
Inductive Activation :=
| RetryNext (withoutExt : jsstring)
| RetryShorter (withoutExt : jsstring)
| Return (fullPath : jsstring) (w : World)
| Throw (err : JSError).

Definition RUNNABLE_SEPARATOR : jsstring := js " -- ".

(** [pathSeparatorRe = /[\\\/]/g] *)
Definition pathSeparatorRe (c : Z) : bool :=
  (c =? CHAR_BACKWARD_SLASH) || (c =? CHAR_FORWARD_SLASH).

(** The fields of [Data] that [getPath] reads.  An absent or empty [name]
    or [specName] is the empty string, an absent [titles] is the empty
    list, an absent [testFailure] is [false]. *)
Record Data := {
  specName : jsstring;
  name : jsstring;
  titles : list JSValue;
  testFailure : bool;
  testAttemptIndex : option Z
}.

(** [sanitizeToString(title)] *)
Definition sanitizeToString (title : JSValue) : JSError + jsstring :=
  sanitize (VString (lodash_toString title)).

(** [arr.map(f)] for an [f] that may throw: the first exception ends the
    loop. *)
Fixpoint map_throwing {A B} (f : A → JSError + B) (l : list A)
  : JSError + list B :=
  match l with
  | [] => inr []
  | x :: l' =>
      match f x with
      | inl e => inl e
      | inr y => match map_throwing f l' with
                 | inl e => inl e
                 | inr ys => inr (y :: ys)
                 end
      end
  end.

(** The array [names] of [getPath] before the markers are appended. *)
Definition names_sanitized (data : Data) : JSError + list jsstring :=
  if bool_decide (name data ≠ []) then
    map_throwing sanitizeToString
      (VString <$> split_on pathSeparatorRe (name data))
  else
    match map_throwing sanitizeToString (titles data) with
    | inl e => inl e
    | inr ts => inr [join_with RUNNABLE_SEPARATOR ts]
    end.

(** The two updates of [names[index]]. *)
Definition mark_names (data : Data) (names : list jsstring) : list jsstring :=
  let index := (length names - 1)%nat in
  let names :=
    if testFailure data
    then <[index := (names !!! index) ++ js " (failed)"]> names
    else names in
  match testAttemptIndex data with
  | Some attempt =>
      if 0 <? attempt
      then <[index := (names !!! index) ++ js " (attempt "
                        ++ show_Z (attempt + 1) ++ js ")"]> names
      else names
  | None => names
  end.

Definition specNames (data : Data) : list jsstring :=
  split_on pathSeparatorRe (specName data).

(** The path [getPath] hands to [ensureSafePath]. *)
Definition getPath_withoutExt (data : Data) (screenshotsFolder : jsstring)
  : JSError + jsstring :=
  match names_sanitized data with
  | inl e => inl e
  | inr names =>
      inr (path_join (screenshotsFolder :: specNames data
                        ++ mark_names data names))
  end.

(** The suffix of a candidate: the duplicate marker, when there is one, and
    the extension. *)
Definition suffix (extension : jsstring) (overwrite : bool) (num : N)
  : jsstring :=
  (if negb (num =? 0)%N && negb overwrite
   then js " (" ++ show_N num ++ js ")" else [])
  ++ js "." ++ extension.

Definition maxSafePrefixBytes (w : World) (extension : jsstring)
    (overwrite : bool) (num : N) : Z :=
  maxSafeBytes w - str_length (suffix extension overwrite num).

(** [withoutExt] after the truncation of its base name. *)
Definition truncated_withoutExt (limit : Z) (withoutExt : jsstring)
  : jsstring :=
  let filenameBuf := Buffer_from (path_basename withoutExt) in
  if limit <? byteLength filenameBuf then
    let truncated := Buffer_toString (Buffer_slice0 filenameBuf limit) in
    path_join [path_dirname withoutExt; truncated]
  else withoutExt.

Definition fullPath (w : World) (withoutExt extension : jsstring)
    (overwrite : bool) (num : N) : jsstring :=
  truncated_withoutExt (maxSafePrefixBytes w extension overwrite num)
    withoutExt
  ++ suffix extension overwrite num.

Section Resolver.

(** What creating a file answers, as a function of the path: [None] when
    the file system accepts the name, the error otherwise.  [fs-extra] is
    not part of the repository: the files are a finite map from paths to
    contents, and directories are not modelled. *)
Variable create_error : jsstring → option JSError.

(** [fs.outputFileAsync(p, data)]: a rejected call leaves the files as
    they are. *)
Definition outputFile (w : World) (p : jsstring) (data : list Z)
  : JSError + World :=
  match create_error p with
  | Some err => inl err
  | None =>
      inr {| maxSafeBytes := maxSafeBytes w;
             files := <[p := data]> (files w) |}
  end.

Definition activation (w : World) (withoutExt extension : jsstring)
    (overwrite : bool) (num : N) : Activation :=
  let limit := maxSafePrefixBytes w extension overwrite num in
  let withoutExt := truncated_withoutExt limit withoutExt in
  let fullPath := withoutExt ++ suffix extension overwrite num in
  if pathExists w fullPath && negb overwrite then RetryNext withoutExt
  else
    match outputFile w fullPath [] with
    | inr w' => Return fullPath w'
    | inl err =>
        if bool_decide (code err = Some "ENAMETOOLONG"%string)
           && (MIN_PREFIX_BYTES <=? limit)
        then RetryShorter withoutExt
        else Throw err
    end.

(** [ensureSafePath(withoutExt, extension, overwrite, num)]; [fuel]
    bounds the depth of the recursion. *)
Fixpoint ensureSafePath (fuel : nat) (w : World)
    (withoutExt extension : jsstring) (overwrite : bool) (num : N)
  : Outcome :=
  match fuel with
  | O => OutOfFuel
  | S fuel' =>
      match activation w withoutExt extension overwrite num with
      | RetryNext withoutExt' =>
          ensureSafePath fuel' w withoutExt' extension overwrite (num + 1)
      | RetryShorter withoutExt' =>
          ensureSafePath fuel' (set_maxSafeBytes w (maxSafeBytes w - 1))
            withoutExt' extension overwrite num
      | Return p w' => Resolved p w'
      | Throw err => Failed err w
      end
  end.

(** The candidates the recursion probes, in order, each with its
    duplicate index and the budget it was built under. *)
Fixpoint candidates (fuel : nat) (w : World)
    (withoutExt extension : jsstring) (overwrite : bool) (num : N)
  : list (N * Z * jsstring) :=
  match fuel with
  | O => []
  | S fuel' =>
      (num, maxSafeBytes w, fullPath w withoutExt extension overwrite num)
      :: match activation w withoutExt extension overwrite num with
         | RetryNext withoutExt' =>
             candidates fuel' w withoutExt' extension overwrite (num + 1)
         | RetryShorter withoutExt' =>
             candidates fuel' (set_maxSafeBytes w (maxSafeBytes w - 1))
               withoutExt' extension overwrite num
         | _ => []
         end
  end.

(** The number of ENAMETOOLONG recoveries of a call. *)
Fixpoint recoveries (fuel : nat) (w : World)
    (withoutExt extension : jsstring) (overwrite : bool) (num : N) : nat :=
  match fuel with
  | O => O
  | S fuel' =>
      match activation w withoutExt extension overwrite num with
      | RetryNext withoutExt' =>
          recoveries fuel' w withoutExt' extension overwrite (num + 1)
      | RetryShorter withoutExt' =>
          S (recoveries fuel' (set_maxSafeBytes w (maxSafeBytes w - 1))
               withoutExt' extension overwrite num)
      | _ => O
      end
  end.

(** [getPath(data, ext, screenshotsFolder, overwrite)] *)
Definition getPath (fuel : nat) (w : World) (data : Data)
    (ext screenshotsFolder : jsstring) (overwrite : bool) : Outcome :=
  match getPath_withoutExt data screenshotsFolder with
  | inl e => Failed e w
  | inr withoutExt => ensureSafePath fuel w withoutExt ext overwrite 0
  end.

(** A request for one artifact, and the module serving a list of them one
    after the other, each call starting in the state the previous one
    left.  A call that runs out of fuel stops the sequence. *)
Record Request := {
  req_data : Data;
  req_ext : jsstring;
  req_folder : jsstring;
  req_overwrite : bool
}.

Definition world_after (o : Outcome) : option World :=
  match o with
  | Resolved _ w | Failed _ w => Some w
  | OutOfFuel => None
  end.

Fixpoint serve (fuel : nat) (w : World) (reqs : list Request)
  : list Outcome :=
  match reqs with
  | [] => []
  | r :: reqs' =>
      let o := getPath fuel w (req_data r) (req_ext r) (req_folder r)
                 (req_overwrite r) in
      o :: match world_after o with
           | Some w' => serve fuel w' reqs'
           | None => []
           end
  end.

End Resolver.

(* ===================================================================== *)
(** ** Vocabulary of the properties *)
(* ===================================================================== *)

(** The characters a file name must not contain: the ones [illegalRe] and
    [controlRe] match. *)
Definition unsafe_char (c : Z) : bool := illegalRe c || controlRe c.

Definition safe_string (s : jsstring) : Prop :=
  Forall (λ c, unsafe_char c = false) s.

(** A string without the POSIX path separator. *)
Definition no_separator (s : jsstring) : Prop :=
  Forall (λ c, c ≠ CHAR_FORWARD_SLASH) s.

(** A path segment that [path.normalize] keeps as it is. *)
Definition plain_segment (s : jsstring) : Prop :=
  no_separator s ∧ s ≠ [] ∧ s ≠ js "." ∧ s ≠ js "..".

(** The marker [getPath] appends for a failed test. *)
Definition failed_marker (data : Data) : jsstring :=
  if testFailure data then js " (failed)" else [].

(** The marker [getPath] appends for a retried test. *)
Definition attempt_marker (data : Data) : jsstring :=
  match testAttemptIndex data with
  | Some attempt =>
      if 0 <? attempt
      then js " (attempt " ++ show_Z (attempt + 1) ++ js ")" else []
  | None => []
  end.

(** The name segments as the spec describes them: every segment of
    [name], or every title, sanitized on its own. *)
Definition sanitized_names (data : Data) : list jsstring :=
  if bool_decide (name data ≠ []) then
    sanitize_string <$> split_on pathSeparatorRe (name data)
  else
    [join_with RUNNABLE_SEPARATOR
       ((λ t, sanitize_string (lodash_toString t)) <$> titles data)].

(** The value of [maxSafeBytes] after each call of a sequence. *)
Fixpoint budgets (outs : list Outcome) : list Z :=
  match outs with
  | [] => []
  | o :: outs' =>
      match world_after o with
      | Some w => maxSafeBytes w :: budgets outs'
      | None => []
      end
  end.

(** What the caller of [ensureSafePath] sees: the path, or the error. *)
Definition verdict (o : Outcome) : option (JSError + jsstring) :=
  match o with
  | Resolved p _ => Some (inr p)
  | Failed err _ => Some (inl err)
  | OutOfFuel => None
  end.

(** The state a call leaves, [w] when it ran out of fuel. *)
Definition world_or (w : World) (o : Outcome) : World :=
  match world_after o with
  | Some w' => w'
  | None => w
  end.

(** Reading a duplicate marker back: the inverse of [js] on ASCII strings,
    the number a decimal string denotes, and the index [k] of a path that
    ends with the suffix " (k)." and the extension. *)
Definition string_of_js (s : jsstring) : string :=
  string_of_list_ascii ((λ c, ascii_of_nat (Z.to_nat c)) <$> s).

Definition parse_N (s : jsstring) : option N :=
  N.of_uint <$> NilZero.uint_of_string (string_of_js s).

Fixpoint leading_digits (rs : jsstring) : jsstring * jsstring :=
  match rs with
  | [] => ([], [])
  | c :: rs' =>
      if isDigit c
      then let '(ds, rest) := leading_digits rs' in (c :: ds, rest)
      else ([], rs)
  end.

Definition dup_index (ext p : jsstring) : option N :=
  let tail := reverse (js ")." ++ ext) in
  let r := reverse p in
  if bool_decide (take (length tail) r = tail) then
    let '(ds, rest) := leading_digits (drop (length tail) r) in
    match rest with
    | 40 :: 32 :: _ => parse_N (reverse ds)
    | _ => None
    end
  else None.

(** The existing files a call at duplicate index [num] may still run into:
    those that carry an index of at least [num] (and at least 1). *)
Definition awaits (ext : jsstring) (num : N) (p : jsstring) : bool :=
  match dup_index ext p with
  | Some k => (N.max 1 num <=? k)%N
  | None => false
  end.

Definition pending (ext : jsstring) (w : World) (num : N) : nat :=
  size (filter (λ p, awaits ext num p) (dom (files w))).

(** A bound on the number of activations a call can still make. *)
Definition retry_measure (w : World) (ext : jsstring) (overwrite : bool)
    (num : N) : nat :=
  (if overwrite then 0
   else pending ext w num + (if (num =? 0)%N then 1 else 0))
  + Z.to_nat (maxSafeBytes w - MIN_PREFIX_BYTES).

(** Two candidates in a row: the second comes from the exists branch (the
    index grows by one under the same budget) or from the ENAMETOOLONG
    branch (the budget shrinks by one at the same index, and the prefix
    budget was at the floor or above). *)
Definition retry_step (w : World) (ext : jsstring) (overwrite : bool)
    (c c' : N * Z * jsstring) : Prop :=
  (c'.1.1 = (c.1.1 + 1)%N ∧ c'.1.2 = c.1.2 ∧ overwrite = false
   ∧ is_Some (files w !! c.2))
  ∨ (c'.1.1 = c.1.1 ∧ c'.1.2 = c.1.2 - 1
     ∧ MIN_PREFIX_BYTES
       ≤ c.1.2 - str_length (suffix ext overwrite c.1.1)).

(** A call that meets no existing file: none of the candidates it probes
    exists (or [overwrite] is set, and existence is not looked at). *)
Definition meets_no_file (create_error : jsstring → option JSError)
    (fuel : nat) (w : World) (withoutExt extension : jsstring)
    (overwrite : bool) (num : N) : Prop :=
  Forall (λ c : N * Z * jsstring, pathExists w c.2 && negb overwrite = false)
    (candidates create_error fuel w withoutExt extension overwrite num).

(** [Number.MAX_SAFE_INTEGER], and a state whose budget is a safe integer:
    up to this magnitude [maxSafeBytes -= 1] takes exactly one off the
    budget, beyond it the subtraction is rounded and can leave the budget
    as it is. *)
Definition MAX_SAFE_INTEGER : Z := 2 ^ 53 - 1.

Definition safe_budget (w : World) : Prop :=
  - MAX_SAFE_INTEGER ≤ maxSafeBytes w ≤ MAX_SAFE_INTEGER.

(** The candidate of duplicate index [i] for a path that needs no
    truncation, and the state after [n] calls for the same path without
    [overwrite], each call starting in the state the previous one left. *)
Definition variant (withoutExt extension : jsstring) (i : nat) : jsstring :=
  withoutExt ++ suffix extension false (N.of_nat i).

Fixpoint runs (create_error : jsstring → option JSError) (fuel n : nat)
    (w : World) (withoutExt extension : jsstring) : World :=
  match n with
  | O => w
  | S n' =>
      let w' := runs create_error fuel n' w withoutExt extension in
      world_or w'
        (ensureSafePath create_error fuel w' withoutExt extension false 0)
  end.

(** An ASCII string. *)
Definition ascii_string (s : jsstring) : Prop := Forall (λ c, c < 0x80) s.

(* ===================================================================== *)
(** ** Sample file systems, folders and paths *)
(* ===================================================================== *)

(** Three file systems to run the module on: one that takes every name,
    one that refuses every name as too long, and one with a limit on the
    bytes of a file name. *)
Definition accept_all : jsstring → option JSError := λ _, None.

Definition reject_all : jsstring → option JSError := λ _, Some ENAMETOOLONG.

Definition name_max (limit : Z) : jsstring → option JSError :=
  λ p, if limit <? Buffer_byteLength (path_basename p)
       then Some ENAMETOOLONG else None.

(** A file system that denies every creation. *)
Definition EACCES : JSError :=
  {| message := "EACCES: permission denied"; code := Some "EACCES"%string |}.

Definition deny_all : jsstring → option JSError := λ _, Some EACCES.

(** The state of a fresh process with the default budget and an empty
    screenshots folder. *)
Definition fresh_world : World :=
  {| maxSafeBytes := initial_maxSafeBytes None; files := ∅ |}.

(** A path whose base name is the letter a followed by 150 times the
    letter e with an acute accent (two bytes each in UTF-8). *)
Definition accented_path : jsstring :=
  js "/s/a" ++ mjoin (replicate 150 [233]).

(** The same without the leading letter a: 150 two-byte characters. *)
Definition accented_path_even : jsstring :=
  js "/s/" ++ mjoin (replicate 150 [233]).

(** The screenshot of the e2e test for issue 8280, and the folder after two
    runs of it. *)
Definition shot_8280 : jsstring :=
  js "/screenshots/spec1.cy.js/spec1 -- testCase1 (failed)".

Definition after_two_runs : World :=
  {| maxSafeBytes := 254;
     files := {[ shot_8280 ++ js ".png" := [137; 80; 78; 71];
                 shot_8280 ++ js " (1).png" := [137; 80; 78; 71] ]} |}.

(** A path whose base name is 250 times the letter a, and a folder that
    holds its screenshot. *)
Definition long_path : jsstring := js "/s/" ++ replicate 250 97.

Definition long_taken : World :=
  {| maxSafeBytes := 254; files := {[ long_path ++ js ".png" := [] ]} |}.

(** A path whose base name is 300 times the letter a. *)
Definition longer_path : jsstring := js "/s/" ++ replicate 300 97.

(** A base name of 246 letters a that itself ends with a duplicate marker,
    and a folder that holds its screenshot. *)
Definition marked_path : jsstring :=
  js "/s/" ++ replicate 246 97 ++ js " (1)".

Definition marked_taken : World :=
  {| maxSafeBytes := 254; files := {[ marked_path ++ js ".png" := [] ]} |}.

(** A base name of two letters and 100 euro signs (three bytes each in
    UTF-8). *)
Definition euro_path : jsstring :=
  js "/s/ab" ++ mjoin (replicate 100 [0x20AC]).

(** A base name of three letters and 70 characters outside the basic plane
    (a surrogate pair in the string, four bytes in UTF-8). *)
Definition emoji_path : jsstring :=
  js "/s/abc" ++ mjoin (replicate 70 [0xD83D; 0xDE00]).

(** The request of the e2e test for issue 8280: the titles of the failed
    test of [spec1.cy.js]. *)
Definition data_8280 : Data :=
  {| specName := js "spec1.cy.js"; name := [];
     titles := [VString (js "spec1"); VString (js "testCase1")];
     testFailure := true; testAttemptIndex := None |}.

(* ===================================================================== *)
(** * Properties *)
(* ===================================================================== *)

(** ** Sanitization *)

Lemma truncate_loop_unfold (c : Z) (s' : jsstring) (cur limit : Z) :
  truncate_loop (c :: s') cur limit =
    let single :=
      let cur' := cur + Buffer_byteLength [c] in
      if cur' =? limit then [c]
      else if limit <? cur' then []
      else c :: truncate_loop s' cur' limit in
    match s' with
    | d :: s'' =>
        if isHighSurrogate c && isLowSurrogate d then
          let cur' := cur + Buffer_byteLength [c; d] in
          if cur' =? limit then [c; d]
          else if limit <? cur' then []
          else c :: d :: truncate_loop s'' cur' limit
        else single
    | [] => single
    end.
Proof. reflexivity. Qed.

Lemma truncate_loop_elem (n : nat) :
  ∀ (s : jsstring) (cur limit c : Z),
    (length s ≤ n)%nat → c ∈ truncate_loop s cur limit → c ∈ s.
Proof.
  induction n as [|n IH]; intros s cur limit c Hlen Hin.
  - destruct s; [by inversion Hin | simpl in Hlen; lia].
  - destruct s as [|a s]; [by inversion Hin|].
    rewrite truncate_loop_unfold in Hin. cbv zeta in Hin.
    simpl in Hlen.
    destruct s as [|b s]; repeat case_match;
      rewrite ?elem_of_cons in Hin;
      repeat match goal with H : _ ∨ _ |- _ => destruct H as [H|H] end;
      subst;
      try match goal with
        | H : _ ∈ truncate_loop _ _ _ |- _ =>
            apply IH in H; [|simpl in *; lia]
        end;
      set_solver.
Qed.

Lemma drop_trailing_elem (rs : jsstring) (c : Z) :
  c ∈ drop_trailing rs → c ∈ rs.
Proof.
  induction rs as [|a rs IH]; simpl; [done|].
  case_match; [|done]. intros Hc. right. by apply IH.
Qed.

Lemma sanitize_string_elem (s : jsstring) (c : Z) :
  c ∈ sanitize_string s →
  c ∈ remove_matching controlRe (remove_matching illegalRe s).
Proof.
  unfold sanitize_string, truncate. intros H.
  apply (truncate_loop_elem _ _ _ _ _ (le_n _)) in H.
  apply elem_of_reverse, drop_trailing_elem in H.
  rewrite elem_of_reverse in H.
  repeat case_match; set_solver.
Qed.

Lemma sanitize_string_safe (s : jsstring) : safe_string (sanitize_string s).
Proof.
  apply Forall_forall. intros c Hc.
  apply sanitize_string_elem in Hc.
  unfold remove_matching in Hc.
  apply list_elem_of_filter in Hc as [Hctl Hc].
  apply list_elem_of_filter in Hc as [Hill _].
  unfold unsafe_char. by rewrite Hill, Hctl.
Qed.

Lemma sanitizeToString_total (title : JSValue) :
  sanitizeToString title = inr (sanitize_string (lodash_toString title)).
Proof. reflexivity. Qed.

(** C9. Sanitization of a title is total: for every value (a string, also
    the empty one, [null], [undefined], a boolean or a number)
    [sanitizeToString] returns a string, never an exception; the value is
    stringified by [_.toString] first, and the result contains no character
    matched by [illegalRe] or [controlRe]. *)
Theorem sanitizeToString_total_and_safe (title : JSValue) :
  ∃ s : jsstring,
    sanitizeToString title = inr s
    ∧ s = sanitize_string (lodash_toString title)
    ∧ safe_string s.
Proof.
  exists (sanitize_string (lodash_toString title)).
  split; [apply sanitizeToString_total|].
  split; [done | apply sanitize_string_safe].
Qed.

(** ** The names [getPath] builds *)

Lemma split_on_nonempty (sep : Z → bool) (s : jsstring) :
  split_on sep s ≠ [].
Proof. destruct s as [|c s]; simpl; [done|]. by repeat case_match. Qed.

Lemma map_throwing_sanitizeToString (ts : list JSValue) :
  map_throwing sanitizeToString ts
  = inr ((λ t, sanitize_string (lodash_toString t)) <$> ts).
Proof.
  induction ts as [|t ts IH]; simpl; [done|]. by rewrite IH.
Qed.

Lemma names_sanitized_eq (data : Data) :
  names_sanitized data = inr (sanitized_names data).
Proof.
  unfold names_sanitized, sanitized_names.
  rewrite !map_throwing_sanitizeToString.
  case_bool_decide; [|done].
  by rewrite <- list_fmap_compose.
Qed.

Lemma sanitized_names_snoc (data : Data) :
  ∃ (init : list jsstring) (leaf : jsstring),
    sanitized_names data = init ++ [leaf].
Proof.
  assert (Hne : sanitized_names data ≠ []).
  { unfold sanitized_names. case_bool_decide; [|done].
    intros Heq. apply fmap_nil_inv in Heq.
    by apply split_on_nonempty in Heq. }
  destruct (sanitized_names data) as [|x l _] using rev_ind; [done|].
  by exists l, x.
Qed.

Lemma mark_names_snoc (data : Data) (init : list jsstring) (leaf : jsstring) :
  mark_names data (init ++ [leaf])
  = init ++ [leaf ++ failed_marker data ++ attempt_marker data].
Proof.
  assert (Hset : ∀ x y : jsstring,
             <[length init := y]> (init ++ [x]) = init ++ [y]).
  { intros x y. rewrite insert_app_r_alt by lia.
    by rewrite Nat.sub_diag. }
  assert (Hget : ∀ x : jsstring, (init ++ [x]) !!! length init = x).
  { intros x. by apply list_lookup_total_middle. }
  unfold mark_names, failed_marker, attempt_marker.
  rewrite length_app; simpl.
  replace (length init + 1 - 1)%nat with (length init) by lia.
  destruct (testFailure data), (testAttemptIndex data) as [attempt|];
    try destruct (0 <? attempt);
    rewrite ?Hset, ?length_app, ?Hget; simpl;
    rewrite ?Nat.add_sub, ?Hset, ?Hget, ?app_nil_r, <- ?app_assoc; done.
Qed.

(** C7. In [getPath] the array [names] is never empty, and the two
    updates of [names[index]] touch its last element only: the literal
    " (failed)" is appended when [testFailure] is set, then the literal
    " (attempt N)" with N = [testAttemptIndex + 1] when [testAttemptIndex]
    is positive; when both apply, the failure marker comes first. *)
Theorem getPath_markers_on_leaf (data : Data) :
  ∃ (init : list jsstring) (leaf : jsstring),
    names_sanitized data = inr (init ++ [leaf])
    ∧ mark_names data (init ++ [leaf])
      = init ++ [leaf
                 ++ (if testFailure data then js " (failed)" else [])
                 ++ (match testAttemptIndex data with
                     | Some attempt =>
                         if 0 <? attempt
                         then js " (attempt " ++ show_Z (attempt + 1)
                                ++ js ")"
                         else []
                     | None => []
                     end)].
Proof.
  destruct (sanitized_names_snoc data) as (init & leaf & Hnames).
  exists init, leaf. split.
  - by rewrite names_sanitized_eq, Hnames.
  - apply mark_names_snoc.
Qed.

Lemma join_with_elem (sep : jsstring) (parts : list jsstring) (c : Z) :
  c ∈ join_with sep parts → c ∈ sep ∨ ∃ p, p ∈ parts ∧ c ∈ p.
Proof.
  induction parts as [|p [|q parts] IH]; intros Hc.
  - by inversion Hc.
  - right. exists p. split; [left | done].
  - change (c ∈ p ++ sep ++ join_with sep (q :: parts)) in Hc.
    rewrite !elem_of_app in Hc. destruct Hc as [Hc|[Hc|Hc]].
    + right. exists p. split; [left | done].
    + by left.
    + destruct (IH Hc) as [?|(p' & Hp' & ?)]; [by left|].
      right. exists p'. split; [by right | done].
Qed.

Lemma sanitized_names_safe (data : Data) :
  Forall safe_string (sanitized_names data).
Proof.
  unfold sanitized_names. case_bool_decide.
  - apply Forall_fmap, Forall_true. intros s. apply sanitize_string_safe.
  - apply Forall_singleton, Forall_forall. intros c Hc.
    apply join_with_elem in Hc as [Hc|(p & Hp & Hc)].
    + change RUNNABLE_SEPARATOR with [32; 45; 45; 32] in Hc.
      rewrite !elem_of_cons in Hc.
      destruct Hc as [->|[->|[->|[->|Hc]]]]; try done. by inversion Hc.
    + apply list_elem_of_fmap in Hp as (t & -> & _).
      pose proof (sanitize_string_safe (lodash_toString t)) as Hsafe.
      by eapply Forall_forall in Hsafe.
Qed.

(** C8, as the code has it.  The segments [getPath] joins after the
    screenshots folder are the segments of [specName], split on the path
    separators and taken as they are, then the name segments; only the
    name segments are sanitized.  The directory part is everything but the
    last name segment, which carries the markers. *)
Theorem getPath_segments (data : Data) (screenshotsFolder : jsstring) :
  ∃ (init : list jsstring) (leaf : jsstring),
    sanitized_names data = init ++ [leaf]
    ∧ Forall safe_string (init ++ [leaf])
    ∧ getPath_withoutExt data screenshotsFolder
      = inr (path_join
               (screenshotsFolder
                  :: (split_on pathSeparatorRe (specName data) ++ init)
                  ++ [leaf ++ failed_marker data ++ attempt_marker data])).
Proof.
  destruct (sanitized_names_snoc data) as (init & leaf & Hnames).
  exists init, leaf. split; [done|]. split.
  - rewrite <- Hnames. apply sanitized_names_safe.
  - unfold getPath_withoutExt, specNames.
    rewrite names_sanitized_eq, Hnames, mark_names_snoc.
    by rewrite <- app_assoc.
Qed.

(** C8, as the spec states it, fails: a [specName] with a character that
    sanitization removes reaches the path unchanged. *)
Lemma specName_segments_not_sanitized :
  let data := {| specName := js "a:b/c?.cy.js"; name := js "shot";
                 titles := []; testFailure := false;
                 testAttemptIndex := None |} in
  getPath_withoutExt data (js "/shots") = inr (js "/shots/a:b/c?.cy.js/shot")
  ∧ specNames data = [js "a:b"; js "c?.cy.js"]
  ∧ sanitize_string <$> specNames data = [js "ab"; js "c.cy.js"]
  ∧ ¬ Forall safe_string (specNames data).
Proof.
  repeat split; try by vm_compute.
  intros Hsafe. apply Forall_cons in Hsafe as [Hsafe _].
  apply Forall_cons in Hsafe as [_ Hsafe].
  apply Forall_cons in Hsafe as [Hcolon _].
  by vm_compute in Hcolon.
Qed.

(** ** Paths *)

Lemma isPosixPathSeparator_false (c : Z) :
  c ≠ CHAR_FORWARD_SLASH → isPosixPathSeparator c = false.
Proof. intros Hc. by apply Z.eqb_neq. Qed.

Lemma isPosixPathSeparator_true (c : Z) :
  isPosixPathSeparator c = true → c = CHAR_FORWARD_SLASH.
Proof. apply Z.eqb_eq. Qed.

Lemma basename_scan_segment (rb rest acc : jsstring) :
  no_separator rb →
  basename_scan (rb ++ CHAR_FORWARD_SLASH :: rest) false acc
  = reverse rb ++ acc.
Proof.
  intros Hrb. revert acc.
  induction Hrb as [|c rb Hc _ IH]; intros acc; simpl; [done|].
  rewrite isPosixPathSeparator_false, IH, reverse_cons by done.
  by rewrite <- app_assoc.
Qed.

Lemma basename_scan_whole (rb acc : jsstring) :
  no_separator rb → basename_scan rb false acc = reverse rb ++ acc.
Proof.
  intros Hrb. revert acc.
  induction Hrb as [|c rb Hc _ IH]; intros acc; simpl; [done|].
  rewrite isPosixPathSeparator_false, IH, reverse_cons by done.
  by rewrite <- app_assoc.
Qed.

Lemma no_separator_reverse (s : jsstring) :
  no_separator s → no_separator (reverse s).
Proof.
  unfold no_separator. rewrite !Forall_forall.
  intros Hs c Hc. apply Hs. by apply elem_of_reverse.
Qed.

Lemma path_basename_plain (b : jsstring) :
  no_separator b → path_basename b = b.
Proof.
  intros Hb. unfold path_basename.
  destruct (reverse b) as [|c rb] eqn:Hrev.
  - apply (f_equal reverse) in Hrev. by rewrite reverse_involutive in Hrev.
  - apply no_separator_reverse in Hb. rewrite Hrev in Hb.
    apply Forall_cons in Hb as [Hc Hrb]. simpl.
    rewrite isPosixPathSeparator_false, basename_scan_whole by done.
    rewrite <- reverse_cons, <- Hrev. apply reverse_involutive.
Qed.

Lemma path_basename_last_segment (dir b : jsstring) :
  no_separator b → b ≠ [] →
  path_basename (dir ++ CHAR_FORWARD_SLASH :: b) = b.
Proof.
  intros Hb Hne. unfold path_basename.
  rewrite reverse_app, reverse_cons, <- app_assoc. simpl.
  destruct (reverse b) as [|c rb] eqn:Hrev.
  - apply (f_equal reverse) in Hrev. by rewrite reverse_involutive in Hrev.
  - apply no_separator_reverse in Hb. rewrite Hrev in Hb.
    apply Forall_cons in Hb as [Hc Hrb]. simpl.
    rewrite isPosixPathSeparator_false, basename_scan_segment by done.
    rewrite <- reverse_cons, <- Hrev. apply reverse_involutive.
Qed.

Lemma basename_scan_no_separator (rs : jsstring) :
  ∀ (matchedSlash : bool) (acc : jsstring),
    no_separator acc → no_separator (basename_scan rs matchedSlash acc).
Proof.
  induction rs as [|c rs IH]; intros m acc Hacc; simpl; [done|].
  destruct (isPosixPathSeparator c) eqn:Hc.
  - destruct m; [by apply IH | done].
  - apply IH. constructor; [|done].
    intros ->. by vm_compute in Hc.
Qed.

Lemma path_basename_no_separator (p : jsstring) :
  no_separator (path_basename p).
Proof. apply basename_scan_no_separator. constructor. Qed.

Lemma split_on_app_separator (sep : Z → bool) (a b : jsstring) (c : Z) :
  sep c = true →
  split_on sep (a ++ c :: b) = split_on sep a ++ split_on sep b.
Proof.
  intros Hc. induction a as [|x a IH]; simpl.
  - by rewrite Hc.
  - rewrite IH. destruct (sep x); [done|].
    pose proof (split_on_nonempty sep a) as Hne.
    by destruct (split_on sep a).
Qed.

Lemma split_on_no_separator (s : jsstring) :
  no_separator s → split_on isPosixPathSeparator s = [s].
Proof.
  induction 1 as [|c s Hc _ IH]; simpl; [done|].
  by rewrite isPosixPathSeparator_false, IH.
Qed.

Lemma join_with_snoc (sep : jsstring) (parts : list jsstring) (t : jsstring) :
  join_with sep (parts ++ [t])
  = match parts with
    | [] => t
    | _ => join_with sep parts ++ sep ++ t
    end.
Proof.
  induction parts as [|p [|q parts] IH]; [done|done|].
  change (p :: q :: parts) with ([p] ++ q :: parts) at 1.
  rewrite <- app_assoc. change (([p] ++ (q :: parts) ++ [t])) with
    (p :: (q :: parts) ++ [t]).
  change (join_with sep (p :: (q :: parts) ++ [t]))
    with (p ++ sep ++ join_with sep ((q :: parts) ++ [t])).
  rewrite IH.
  change (join_with sep (p :: q :: parts))
    with (p ++ sep ++ join_with sep (q :: parts)).
  by rewrite <- !app_assoc.
Qed.

Lemma normalize_segment_plain (allowAboveRoot : bool)
    (res : list jsstring) (seg : jsstring) :
  plain_segment seg →
  normalize_segment allowAboveRoot res seg = seg :: res.
Proof.
  intros (_ & Hne & Hdot & Hdots). unfold normalize_segment.
  by rewrite !bool_decide_eq_false_2.
Qed.

(** A path that ends with a plain segment normalizes to a path whose last
    segment is that segment. *)
Lemma path_join_last_segment (dir t : jsstring) :
  dir ≠ [] → plain_segment t →
  path_join [dir; t] = t
  ∨ ∃ parent, path_join [dir; t] = parent ++ CHAR_FORWARD_SLASH :: t.
Proof.
  intros Hdir Ht. pose proof Ht as (Hsep & Hne & _).
  unfold path_join. rewrite !filter_cons_True, filter_nil by done.
  change (join_with (js "/") [dir; t])
    with (dir ++ CHAR_FORWARD_SLASH :: t).
  unfold path_normalize.
  destruct (dir ++ CHAR_FORWARD_SLASH :: t) as [|c rest] eqn:Hp.
  { by destruct dir. }
  rewrite <- Hp. clear Hp rest.
  assert (Hlast : last (dir ++ CHAR_FORWARD_SLASH :: t) = last t).
  { rewrite (last_app_cons dir). destruct t; [done|].
    by rewrite (last_cons_cons _ _ _). }
  assert (Hnorm : ∀ allow, ∃ kept,
    normalizeString (dir ++ CHAR_FORWARD_SLASH :: t) allow
    = join_with (js "/") (kept ++ [t])).
  { intros allow. unfold normalizeString.
    rewrite split_on_app_separator by reflexivity.
    rewrite (split_on_no_separator t) by done.
    rewrite foldl_app. simpl. rewrite normalize_segment_plain by done.
    rewrite reverse_cons. eauto. }
  assert (Htrail : match last t with
                   | Some d => isPosixPathSeparator d
                   | None => false
                   end = false).
  { destruct (last t) as [d|] eqn:Hd; [|done].
    apply isPosixPathSeparator_false.
    apply last_Some_elem_of in Hd.
    unfold no_separator in Hsep. rewrite Forall_forall in Hsep. auto. }
  rewrite Hlast, Htrail.
  destruct (Hnorm (negb (isPosixPathSeparator c))) as [kept ->].
  rewrite join_with_snoc.
  destruct kept as [|k kept].
  - destruct t as [|x t]; [done|].
    destruct (isPosixPathSeparator c); [right; by exists [] | by left].
  - set (q := join_with (js "/") (k :: kept)).
    assert (Hq : q ++ js "/" ++ t = q ++ CHAR_FORWARD_SLASH :: t) by done.
    rewrite Hq. destruct (q ++ CHAR_FORWARD_SLASH :: t) eqn:Hqt.
    { by destruct q. }
    rewrite <- Hqt. clear Hqt.
    destruct (isPosixPathSeparator c); right.
    + exists (js "/" ++ q). by rewrite <- app_assoc.
    + by exists q.
Qed.

Lemma dirname_scan_positive (rs : jsstring) :
  ∀ (i : nat) (matchedSlash : bool) (e : nat),
    length rs = i → dirname_scan rs i matchedSlash = Some e → (1 ≤ e)%nat.
Proof.
  induction rs as [|c rs IH]; intros i m e Hlen; simpl; [done|].
  simpl in Hlen. destruct (isPosixPathSeparator c), m;
    try (apply IH; lia). intros [= <-]. lia.
Qed.

Lemma path_dirname_nonempty (p : jsstring) : path_dirname p ≠ [].
Proof.
  unfold path_dirname. destruct p as [|c rest]; [done|].
  destruct (dirname_scan _ _ _) as [e|] eqn:Hscan.
  - apply dirname_scan_positive in Hscan; [|by rewrite length_reverse].
    destruct (_ && _); [done|]. by destruct e; [lia|].
  - by destruct (isPosixPathSeparator c).
Qed.

(** ** UTF-8 *)

Lemma utf8_of_cp_ascii (c b : Z) :
  b ∈ utf8_of_cp c → b < 0x80 → b = c.
Proof.
  unfold utf8_of_cp. intros Hb Hlt.
  destruct (c <? 0x80) eqn:H1; [set_solver|].
  apply Z.ltb_ge in H1.
  pose proof (Z.mod_pos_bound c 64 eq_refl).
  pose proof (Z.mod_pos_bound (c / 64) 64 eq_refl).
  pose proof (Z.mod_pos_bound (c / 4096) 64 eq_refl).
  assert (0 ≤ c / 64) by (apply Z.div_pos; lia).
  assert (0 ≤ c / 4096) by (apply Z.div_pos; lia).
  assert (0 ≤ c / 262144) by (apply Z.div_pos; lia).
  repeat case_match; rewrite ?elem_of_cons in Hb;
    repeat match goal with H : _ ∨ _ |- _ => destruct H as [H|H] end;
    try lia; by apply elem_of_nil in Hb.
Qed.

Lemma utf8_of_cp_multibyte (c b : Z) :
  0x80 ≤ c → b ∈ utf8_of_cp c → 0x80 ≤ b.
Proof.
  intros Hc Hb. destruct (decide (b < 0x80)) as [Hlt|]; [|lia].
  apply utf8_of_cp_ascii in Hb; lia.
Qed.

Lemma surrogate_not_ascii (c : Z) :
  c < 0x80 → isHighSurrogate c = false ∧ isLowSurrogate c = false.
Proof. unfold isHighSurrogate, isLowSurrogate. lia. Qed.

Lemma Buffer_from_ascii (s : jsstring) :
  Forall (λ c, c < 0x80) s → Buffer_from s = s.
Proof.
  induction 1 as [|c s Hc _ IH]; [done|].
  destruct (surrogate_not_ascii c Hc) as [Hhi Hlo].
  cbn [Buffer_from]. rewrite Hhi, Hlo, IH.
  unfold utf8_of_cp. by replace (c <? 0x80) with true by lia.
Qed.

Lemma Buffer_from_unfold (c : Z) (s' : jsstring) :
  Buffer_from (c :: s') =
    if isHighSurrogate c then
      match s' with
      | d :: s'' =>
          if isLowSurrogate d
          then utf8_of_cp (0x10000 + (c - 0xD800) * 1024 + (d - 0xDC00))
                 ++ Buffer_from s''
          else utf8_of_cp REPLACEMENT ++ Buffer_from s'
      | [] => utf8_of_cp REPLACEMENT
      end
    else if isLowSurrogate c then utf8_of_cp REPLACEMENT ++ Buffer_from s'
    else utf8_of_cp c ++ Buffer_from s'.
Proof. reflexivity. Qed.

(** An ASCII byte of the encoding is an ASCII character of the string, and
    the other way round. *)
Lemma Buffer_from_ascii_byte (n : nat) :
  ∀ (s : jsstring) (b : Z),
    (length s ≤ n)%nat → b < 0x80 → b ∈ Buffer_from s ↔ b ∈ s.
Proof.
  induction n as [|n IH]; intros s b Hlen Hb.
  { destruct s; [done | simpl in Hlen; lia]. }
  destruct s as [|c s]; [done|]. simpl in Hlen.
  assert (Hrepl : b ∉ utf8_of_cp REPLACEMENT).
  { intros Hin. apply utf8_of_cp_multibyte in Hin; [lia | by vm_compute]. }
  rewrite Buffer_from_unfold.
  destruct (isHighSurrogate c) eqn:Hhi.
  - assert (b ≠ c).
    { intros ->. destruct (surrogate_not_ascii c Hb). congruence. }
    destruct s as [|d s].
    + set_solver.
    + destruct (isLowSurrogate d) eqn:Hlo.
      * assert (b ≠ d).
        { intros ->. destruct (surrogate_not_ascii d Hb). congruence. }
        rewrite elem_of_app, !elem_of_cons, (IH s b) by (simpl in *; lia).
        split; [intros [Hin|?]; [|by auto] | naive_solver].
        apply utf8_of_cp_multibyte in Hin; [lia|].
        unfold isHighSurrogate, isLowSurrogate in *. lia.
      * rewrite elem_of_app, (elem_of_cons (d :: s)),
          (IH (d :: s) b) by (simpl in *; lia).
        naive_solver.
  - destruct (isLowSurrogate c) eqn:Hlo.
    + assert (b ≠ c).
      { intros ->. destruct (surrogate_not_ascii c Hb). congruence. }
      rewrite elem_of_app, elem_of_cons, (IH s b) by lia. naive_solver.
    + rewrite elem_of_app, elem_of_cons, (IH s b) by lia.
      split.
      * intros [Hin|?]; [|by auto]. left. by apply utf8_of_cp_ascii.
      * intros [->|?]; [|by auto]. left. unfold utf8_of_cp.
        replace (c <? 0x80) with true by lia. set_solver.
Qed.

(** Encoding distributes over a concatenation whose second part does not
    start with a low surrogate. *)
Lemma Buffer_from_app (n : nat) :
  ∀ (t s : jsstring),
    (length t ≤ n)%nat →
    match s with d :: _ => isLowSurrogate d = false | [] => True end →
    Buffer_from (t ++ s) = Buffer_from t ++ Buffer_from s.
Proof.
  induction n as [|n IH]; intros t s Hlen Hs.
  { destruct t; [done | simpl in Hlen; lia]. }
  destruct t as [|c [|d t]]; [done| |].
  - change ([c] ++ s) with (c :: s). rewrite !Buffer_from_unfold.
    destruct s as [|e s].
    + by rewrite !app_nil_r.
    + rewrite Hs. change (Buffer_from []) with (@nil Z).
      repeat case_match; by rewrite ?app_nil_r.
  - simpl in Hlen.
    change ((c :: d :: t) ++ s) with (c :: d :: (t ++ s)).
    rewrite (Buffer_from_unfold c (d :: t ++ s)),
      (Buffer_from_unfold c (d :: t)).
    assert (Ht : Buffer_from (t ++ s) = Buffer_from t ++ Buffer_from s)
      by (apply IH; [lia | done]).
    assert (Hdt : Buffer_from (d :: t ++ s)
                  = Buffer_from (d :: t) ++ Buffer_from s)
      by (apply (IH (d :: t) s); [simpl; lia | done]).
    rewrite Ht, Hdt.
    repeat case_match; by rewrite <- ?app_assoc.
Qed.

(** ** Decimal digits *)

Lemma js_cons (a : ascii) (s : string) :
  js (String a s) = Z.of_nat (nat_of_ascii a) :: js s.
Proof. reflexivity. Qed.

Lemma show_uint_digits (d : Decimal.uint) :
  Forall (λ c, 48 ≤ c ≤ 57) (js (NilEmpty.string_of_uint d)).
Proof.
  induction d; simpl; rewrite ?js_cons;
    constructor; (done || (cbn; lia)).
Qed.

Lemma show_N_digits (n : N) : Forall (λ c, 48 ≤ c ≤ 57) (show_N n).
Proof.
  unfold show_N, NilZero.string_of_uint.
  destruct (N.to_uint n) as [|d|d|d|d|d|d|d|d|d|d];
    [apply (show_uint_digits (Decimal.D0 Decimal.Nil))
    | exact (show_uint_digits (Decimal.D0 d))
    | exact (show_uint_digits (Decimal.D1 d))
    | exact (show_uint_digits (Decimal.D2 d))
    | exact (show_uint_digits (Decimal.D3 d))
    | exact (show_uint_digits (Decimal.D4 d))
    | exact (show_uint_digits (Decimal.D5 d))
    | exact (show_uint_digits (Decimal.D6 d))
    | exact (show_uint_digits (Decimal.D7 d))
    | exact (show_uint_digits (Decimal.D8 d))
    | exact (show_uint_digits (Decimal.D9 d))].
Qed.

(** ** Duplicate markers *)

Lemma string_of_js_js (s : string) : string_of_js (js s) = s.
Proof.
  induction s as [|a s IH]; [done|].
  rewrite js_cons. unfold string_of_js in *. rewrite fmap_cons.
  cbn [string_of_list_ascii].
  by rewrite Nat2Z.id, ascii_nat_embedding, IH.
Qed.

Lemma parse_N_show_N (n : N) : parse_N (show_N n) = Some n.
Proof.
  unfold parse_N, show_N. rewrite string_of_js_js, NilZero.usu.
  - simpl. by rewrite DecimalN.Unsigned.of_to.
  - destruct n; [done|]. apply DecimalPos.Unsigned.to_uint_nonnil.
Qed.

Lemma show_N_inj (n m : N) : show_N n = show_N m → n = m.
Proof.
  intros Heq. apply (f_equal parse_N) in Heq.
  rewrite !parse_N_show_N in Heq. by injection Heq.
Qed.

Lemma leading_digits_app (ds rest : jsstring) :
  Forall (λ c, 48 ≤ c ≤ 57) ds →
  match rest with c :: _ => isDigit c = false | [] => True end →
  leading_digits (ds ++ rest) = (ds, rest).
Proof.
  intros Hds Hrest. induction Hds as [|c ds Hc _ IH]; simpl.
  - destruct rest as [|c rest]; [done|]. simpl. by rewrite Hrest.
  - rewrite IH. unfold isDigit. by replace (_ && _) with true by lia.
Qed.

Lemma dup_index_marked (ext prefix : jsstring) (k : N) :
  dup_index ext (prefix ++ js " (" ++ show_N k ++ js ")." ++ ext) = Some k.
Proof.
  unfold dup_index.
  replace (prefix ++ js " (" ++ show_N k ++ js ")." ++ ext)
    with ((prefix ++ js " (" ++ show_N k) ++ (js ")." ++ ext))
    by (by rewrite <- !app_assoc).
  rewrite (reverse_app _ (js ")." ++ ext)).
  rewrite take_app_length, bool_decide_eq_true_2, drop_app_length by done.
  rewrite !reverse_app, <- app_assoc.
  change (reverse (js " (")) with [40; 32].
  rewrite leading_digits_app.
  - simpl. rewrite reverse_involutive. apply parse_N_show_N.
  - apply Forall_reverse, show_N_digits.
  - done.
Qed.

Lemma dup_index_suffix (ext prefix : jsstring) (k : N) :
  (1 ≤ k)%N → dup_index ext (prefix ++ suffix ext false k) = Some k.
Proof.
  intros Hk. unfold suffix.
  replace (k =? 0)%N with false by (symmetry; apply N.eqb_neq; lia).
  simpl. rewrite <- !app_assoc. apply dup_index_marked.
Qed.

(** Candidates with different duplicate indices, the index 0 apart, are
    different paths, whatever their prefixes. *)
Lemma suffix_index_inj (ext prefix prefix' : jsstring) (k k' : N) :
  (1 ≤ k)%N → (1 ≤ k')%N →
  prefix ++ suffix ext false k = prefix' ++ suffix ext false k' →
  k = k'.
Proof.
  intros Hk Hk' Heq. apply (f_equal (dup_index ext)) in Heq.
  rewrite !dup_index_suffix in Heq by done. by injection Heq.
Qed.

(** ** One activation of [ensureSafePath] *)

Section ResolverFacts.

Variable create_error : jsstring → option JSError.

Lemma activation_Return w W ext ov num p w' :
  activation create_error w W ext ov num = Return p w' →
  p = fullPath w W ext ov num
  ∧ create_error p = None
  ∧ (pathExists w p && negb ov = false)
  ∧ w' = {| maxSafeBytes := maxSafeBytes w; files := <[p := []]> (files w) |}.
Proof.
  unfold activation, outputFile, fullPath.
  destruct (pathExists w _ && negb ov) eqn:Hex; [done|].
  destruct (create_error _) as [err|] eqn:Hcreate.
  - by case_match.
  - intros [= <- <-]. by rewrite Hcreate, Hex.
Qed.

Lemma activation_RetryNext w W ext ov num W' :
  activation create_error w W ext ov num = RetryNext W' →
  W' = truncated_withoutExt (maxSafePrefixBytes w ext ov num) W
  ∧ ov = false
  ∧ is_Some (files w !! fullPath w W ext ov num).
Proof.
  unfold activation, outputFile, fullPath.
  destruct (pathExists w _ && negb ov) eqn:Hex.
  - intros [= <-]. apply andb_true_iff in Hex as [Hex Hov].
    apply bool_decide_eq_true in Hex. by destruct ov.
  - destruct (create_error _); [by case_match | done].
Qed.

Lemma activation_RetryShorter w W ext ov num W' :
  activation create_error w W ext ov num = RetryShorter W' →
  W' = truncated_withoutExt (maxSafePrefixBytes w ext ov num) W
  ∧ (pathExists w (fullPath w W ext ov num) && negb ov = false)
  ∧ (∃ err, create_error (fullPath w W ext ov num) = Some err
            ∧ code err = Some "ENAMETOOLONG"%string)
  ∧ MIN_PREFIX_BYTES ≤ maxSafePrefixBytes w ext ov num.
Proof.
  unfold activation, outputFile, fullPath.
  destruct (pathExists w _ && negb ov) eqn:Hex; [done|].
  destruct (create_error _) as [err|] eqn:Hcreate; [|done].
  destruct (bool_decide _ && _) eqn:Hrec; [|done].
  intros [= <-]. apply andb_true_iff in Hrec as [Hcode Hfloor].
  apply bool_decide_eq_true in Hcode. apply Z.leb_le in Hfloor.
  eauto 10.
Qed.

(** What a failed creation leads to, by the side of the floor the prefix
    budget is on. *)
Lemma activation_name_too_long w W ext ov num err :
  pathExists w (fullPath w W ext ov num) && negb ov = false →
  create_error (fullPath w W ext ov num) = Some err →
  code err = Some "ENAMETOOLONG"%string →
  activation create_error w W ext ov num =
    if MIN_PREFIX_BYTES <=? maxSafePrefixBytes w ext ov num
    then RetryShorter
           (truncated_withoutExt (maxSafePrefixBytes w ext ov num) W)
    else Throw err.
Proof.
  intros Hex Hcreate Hcode. unfold activation, outputFile.
  unfold fullPath in Hex, Hcreate. rewrite Hex, Hcreate.
  by rewrite bool_decide_eq_true_2.
Qed.

(** ** The budget over a call *)

Lemma ensureSafePath_budget fuel :
  ∀ w W ext ov num w',
    world_after (ensureSafePath create_error fuel w W ext ov num) = Some w' →
    maxSafeBytes w'
    = maxSafeBytes w - Z.of_nat (recoveries create_error fuel w W ext ov num).
Proof.
  induction fuel as [|fuel IH]; intros w W ext ov num w'; simpl; [done|].
  destruct (activation create_error w W ext ov num) as [W'|W'|p wr|err]
    eqn:Hact.
  - apply IH.
  - intros Hw. apply IH in Hw. simpl in Hw. lia.
  - apply activation_Return in Hact as (_ & _ & _ & ->).
    intros [= <-]. simpl. lia.
  - intros [= <-]. lia.
Qed.

Lemma ensureSafePath_Failed_files fuel :
  ∀ w W ext ov num err w',
    ensureSafePath create_error fuel w W ext ov num = Failed err w' →
    files w' = files w.
Proof.
  induction fuel as [|fuel IH]; intros w W ext ov num err w'; simpl; [done|].
  destruct (activation create_error w W ext ov num) as [W'|W'|p wr|err'];
    try done.
  - apply IH.
  - intros Hw. by apply IH in Hw.
  - by intros [= _ <-].
Qed.

Lemma candidates_budget fuel :
  ∀ w W ext ov num,
    Forall (λ c : N * Z * jsstring, c.1.2 ≤ maxSafeBytes w)
      (candidates create_error fuel w W ext ov num).
Proof.
  induction fuel as [|fuel IH]; intros w W ext ov num; simpl; [done|].
  apply Forall_cons. split; [simpl; lia|].
  destruct (activation create_error w W ext ov num);
    [apply IH| |done|done].
  pose proof (IH (set_maxSafeBytes w (maxSafeBytes w - 1))
                withoutExt ext ov num) as Hrec.
  eapply Forall_impl; [exact Hrec|]. simpl. intros; lia.
Qed.

(** ** The floor *)

(** C4, as the code has it.  When the creation of the candidate fails with
    ENAMETOOLONG and the prefix budget is strictly below the floor
    [MIN_PREFIX_BYTES], the call throws that error at once, without a retry
    and without touching the state; when the prefix budget is at the floor
    or above, the call decrements [maxSafeBytes] by one and starts again
    with the same duplicate index. *)
Theorem name_too_long_floor fuel w W ext ov num err :
  pathExists w (fullPath w W ext ov num) && negb ov = false →
  create_error (fullPath w W ext ov num) = Some err →
  code err = Some "ENAMETOOLONG"%string →
  (maxSafePrefixBytes w ext ov num < MIN_PREFIX_BYTES →
   ensureSafePath create_error (S fuel) w W ext ov num = Failed err w
   ∧ recoveries create_error (S fuel) w W ext ov num = 0%nat)
  ∧ (MIN_PREFIX_BYTES ≤ maxSafePrefixBytes w ext ov num →
     ensureSafePath create_error (S fuel) w W ext ov num
     = ensureSafePath create_error fuel
         (set_maxSafeBytes w (maxSafeBytes w - 1))
         (truncated_withoutExt (maxSafePrefixBytes w ext ov num) W)
         ext ov num).
Proof.
  intros Hex Hcreate Hcode.
  pose proof (activation_name_too_long w W ext ov num err Hex Hcreate Hcode)
    as Hact.
  split; intros Hfloor; simpl; rewrite Hact.
  - apply Z.leb_gt in Hfloor. by rewrite Hfloor.
  - apply Z.leb_le in Hfloor. by rewrite Hfloor.
Qed.

(** ** The budget across calls *)

Lemma getPath_budget fuel w data ext folder ov w' :
  world_after (getPath create_error fuel w data ext folder ov) = Some w' →
  maxSafeBytes w' ≤ maxSafeBytes w.
Proof.
  unfold getPath. destruct (getPath_withoutExt data folder) as [e|W].
  - intros [= <-]. lia.
  - intros Hw. apply ensureSafePath_budget in Hw. lia.
Qed.

Lemma serve_budgets fuel reqs :
  ∀ w, Forall (λ b, b ≤ maxSafeBytes w)
         (budgets (serve create_error fuel w reqs))
       ∧ StronglySorted (λ a b, b ≤ a)
           (budgets (serve create_error fuel w reqs)).
Proof.
  induction reqs as [|r reqs IH]; intros w; simpl.
  - split; constructor.
  - destruct (world_after _) as [w'|] eqn:Hw; [|split; constructor].
    apply getPath_budget in Hw. destruct (IH w') as [Hle Hsorted].
    split.
    + constructor; [done|]. eapply Forall_impl; [exact Hle|].
      simpl. intros; lia.
    + by constructor.
Qed.

(** C5. [maxSafeBytes] never grows.  A call that returns or throws leaves
    it at its value on entry minus one for each ENAMETOOLONG recovery of
    the call; every candidate of a later call is built under the value the
    earlier call left, the first one under exactly that value; and over
    any sequence of calls the values left behind are non-increasing. *)
Theorem maxSafeBytes_non_increasing fuel w W ext ov num w1 :
  world_after (ensureSafePath create_error fuel w W ext ov num) = Some w1 →
  maxSafeBytes w1
  = maxSafeBytes w - Z.of_nat (recoveries create_error fuel w W ext ov num)
  ∧ maxSafeBytes w1 ≤ maxSafeBytes w
  ∧ (∀ fuel' W' ext' ov' num',
       Forall (λ c : N * Z * jsstring, c.1.2 ≤ maxSafeBytes w1)
         (candidates create_error fuel' w1 W' ext' ov' num')
       ∧ (candidates create_error (S fuel') w1 W' ext' ov' num').*1.*2
           !! 0%nat
         = Some (maxSafeBytes w
                 - Z.of_nat (recoveries create_error fuel w W ext ov num)))
  ∧ (∀ fuel' reqs,
       StronglySorted (λ a b, b ≤ a)
         (maxSafeBytes w :: budgets (serve create_error fuel' w reqs))).
Proof.
  intros Hw. apply ensureSafePath_budget in Hw as Hbudget.
  split; [done|]. split; [lia|]. split.
  - intros fuel' W' ext' ov' num'. split; [apply candidates_budget|].
    simpl. by rewrite Hbudget.
  - intros fuel' reqs. destruct (serve_budgets fuel' reqs w).
    by constructor.
Qed.

(** C10. A call that ends by throwing after [k] ENAMETOOLONG recoveries
    leaves [maxSafeBytes] at its value on entry minus [k] and the files as
    they were: the decrements are not rolled back, and a later call computes
    its prefix budget from the reduced value. *)
Theorem failed_call_keeps_decrements fuel w W ext ov num err w' k :
  ensureSafePath create_error fuel w W ext ov num = Failed err w' →
  recoveries create_error fuel w W ext ov num = k →
  (1 ≤ k)%nat →
  maxSafeBytes w' = maxSafeBytes w - Z.of_nat k
  ∧ maxSafeBytes w' < maxSafeBytes w
  ∧ files w' = files w
  ∧ ∀ ext' ov' num',
      maxSafePrefixBytes w' ext' ov' num'
      = maxSafePrefixBytes w ext' ov' num' - Z.of_nat k.
Proof.
  intros Hfail Hk Hpos.
  assert (Hbudget : maxSafeBytes w' = maxSafeBytes w - Z.of_nat k).
  { rewrite <- Hk. apply ensureSafePath_budget. by rewrite Hfail. }
  split; [done|]. split; [lia|]. split.
  - by eapply ensureSafePath_Failed_files.
  - intros ext' ov' num'. unfold maxSafePrefixBytes. lia.
Qed.

Lemma truncated_withoutExt_fits limit W :
  Buffer_byteLength (path_basename W) ≤ limit →
  truncated_withoutExt limit W = W.
Proof.
  intros Hfit. unfold truncated_withoutExt.
  unfold Buffer_byteLength in Hfit.
  destruct (limit <? _) eqn:Hlt; [|done].
  apply Z.ltb_lt in Hlt. lia.
Qed.

(** ** Overwriting *)

Lemma suffix_overwrite ext num : suffix ext true num = js "." ++ ext.
Proof. unfold suffix. by rewrite andb_false_r. Qed.

Lemma fullPath_overwrite w w' W ext num num' :
  maxSafeBytes w' = maxSafeBytes w →
  fullPath w' W ext true num' = fullPath w W ext true num.
Proof.
  intros Hb. unfold fullPath, maxSafePrefixBytes.
  by rewrite !suffix_overwrite, Hb.
Qed.

Lemma activation_overwrite w w' W ext num num' :
  maxSafeBytes w' = maxSafeBytes w →
  match activation create_error w W ext true num with
  | Return p _ =>
      activation create_error w' W ext true num'
      = Return p {| maxSafeBytes := maxSafeBytes w';
                    files := <[p := []]> (files w') |}
  | RetryNext _ => False
  | other => activation create_error w' W ext true num' = other
  end.
Proof.
  intros Hb. unfold activation, outputFile, maxSafePrefixBytes.
  rewrite !suffix_overwrite, !andb_false_r, Hb.
  set (p := truncated_withoutExt _ W ++ js "." ++ ext).
  destruct (create_error p); [|done].
  by destruct (bool_decide _ && _).
Qed.

Lemma ensureSafePath_overwrite_verdict fuel :
  ∀ w w' W ext num num',
    maxSafeBytes w' = maxSafeBytes w →
    verdict (ensureSafePath create_error fuel w' W ext true num')
    = verdict (ensureSafePath create_error fuel w W ext true num).
Proof.
  induction fuel as [|fuel IH]; intros w w' W ext num num' Hb; simpl; [done|].
  pose proof (activation_overwrite w w' W ext num num' Hb) as Hact.
  destruct (activation create_error w W ext true num) as [W1|W1|p wr|err];
    [done| | |]; rewrite Hact; [|done|done].
  apply IH. simpl. lia.
Qed.

Lemma ensureSafePath_Resolved_suffix fuel :
  ∀ w W ext ov num p wr,
    ensureSafePath create_error fuel w W ext ov num = Resolved p wr →
    ∃ W' num', p = W' ++ suffix ext ov num'.
Proof.
  induction fuel as [|fuel IH]; intros w W ext ov num p wr; simpl; [done|].
  destruct (activation create_error w W ext ov num) as [W1|W1|p1 w1|err]
    eqn:Hact; [apply IH | apply IH | | done].
  intros [= <- <-]. apply activation_Return in Hact as (-> & _).
  unfold fullPath. eauto.
Qed.

Lemma activation_overwrite_accepted w w' W ext num' :
  maxSafeBytes w' = maxSafeBytes w →
  create_error (fullPath w W ext true 0) = None →
  activation create_error w' W ext true num'
  = Return (fullPath w W ext true 0)
      {| maxSafeBytes := maxSafeBytes w';
         files := <[fullPath w W ext true 0 := []]> (files w') |}.
Proof.
  intros Hb Hcreate. unfold activation, outputFile. cbv zeta.
  rewrite andb_false_r.
  change (truncated_withoutExt (maxSafePrefixBytes w' ext true num') W
            ++ suffix ext true num')
    with (fullPath w' W ext true num').
  rewrite (fullPath_overwrite w w' W ext 0 num' Hb). by rewrite Hcreate.
Qed.

(** C3, as the code has it.  With [overwrite] set the suffix of a candidate
    is the extension alone, whatever the duplicate index: no duplicate
    marker is added, and the candidate is the path with its base name
    truncated to the prefix budget, which is the unsuffixed canonical path
    when the base name fits the budget.  What the call returns or throws
    depends neither on the duplicate index nor on the files that exist.
    When the file system accepts the first candidate the call returns it
    after one activation, leaving an empty file there, and the same call in
    the state it left returns it again and changes nothing.  A returned
    path ends with the bare extension, and when the call needed no
    ENAMETOOLONG recovery it is the first candidate. *)
Theorem overwrite_targets_canonical_path fuel w W ext num :
  let p0 := fullPath w W ext true 0 in
  let w0 := {| maxSafeBytes := maxSafeBytes w;
               files := <[p0 := []]> (files w) |} in
  suffix ext true num = js "." ++ ext
  ∧ fullPath w W ext true num
    = truncated_withoutExt (maxSafeBytes w - str_length (js "." ++ ext)) W
      ++ js "." ++ ext
  ∧ (Buffer_byteLength (path_basename W)
     ≤ maxSafeBytes w - str_length (js "." ++ ext) →
     p0 = W ++ js "." ++ ext)
  ∧ (∀ w' num',
       maxSafeBytes w' = maxSafeBytes w →
       verdict (ensureSafePath create_error fuel w' W ext true num')
       = verdict (ensureSafePath create_error fuel w W ext true num))
  ∧ (create_error p0 = None →
     ensureSafePath create_error (S fuel) w W ext true num = Resolved p0 w0
     ∧ ∀ num',
         ensureSafePath create_error (S fuel) w0 W ext true num'
         = Resolved p0 w0)
  ∧ (∀ p wr,
       ensureSafePath create_error fuel w W ext true num = Resolved p wr →
       (∃ W', p = W' ++ js "." ++ ext)
       ∧ (recoveries create_error fuel w W ext true num = 0%nat →
          p = p0
          ∧ ∀ num',
              ensureSafePath create_error fuel wr W ext true num'
              = Resolved p wr)).
Proof.
  intros p0 w0.
  split; [apply suffix_overwrite|]. split.
  { unfold fullPath, maxSafePrefixBytes. by rewrite suffix_overwrite. }
  split.
  { intros Hfit. unfold p0, fullPath, maxSafePrefixBytes.
    rewrite suffix_overwrite. by rewrite truncated_withoutExt_fits. }
  split; [intros w' num'; apply ensureSafePath_overwrite_verdict|].
  split.
  { intros Hcreate. split.
    - simpl.
      by rewrite (activation_overwrite_accepted w w W ext num eq_refl Hcreate).
    - intros num'. simpl.
      rewrite (activation_overwrite_accepted w w0 W ext num' eq_refl Hcreate).
      unfold w0. simpl. by rewrite insert_insert_eq. }
  intros p wr Hres. split.
  { apply ensureSafePath_Resolved_suffix in Hres as (W' & num' & ->).
    rewrite suffix_overwrite. eauto. }
  destruct fuel as [|fuel]; [done|]. simpl in *.
  pose proof (activation_overwrite w wr W ext num) as Hact.
  destruct (activation create_error w W ext true num) as [W1|W1|p1 w1|err]
    eqn:Hfirst; [|by intros [=]| |done].
  { by apply activation_RetryNext in Hfirst as (_ & [=] & _). }
  injection Hres as -> ->. intros _.
  apply activation_Return in Hfirst as (Hp & _ & _ & Hwr).
  split; [rewrite Hp; by apply fullPath_overwrite|].
  intros num'. rewrite (Hact num') by (by rewrite Hwr).
  f_equal. rewrite Hwr at 2 3. simpl. rewrite insert_insert_eq.
  by rewrite Hwr.
Qed.

(** ** Duplicates *)


Lemma fullPath_fits w W ext ov num :
  Buffer_byteLength (path_basename W) ≤ maxSafePrefixBytes w ext ov num →
  fullPath w W ext ov num = W ++ suffix ext ov num.
Proof. intros Hfit. unfold fullPath. by rewrite truncated_withoutExt_fits. Qed.

Lemma activation_taken w W ext num :
  Buffer_byteLength (path_basename W) ≤ maxSafePrefixBytes w ext false num →
  is_Some (files w !! (W ++ suffix ext false num)) →
  activation create_error w W ext false num = RetryNext W.
Proof.
  intros Hfit Hsome. unfold activation.
  rewrite truncated_withoutExt_fits by done.
  unfold pathExists. by rewrite bool_decide_eq_true_2.
Qed.

Lemma activation_free w W ext ov num :
  Buffer_byteLength (path_basename W) ≤ maxSafePrefixBytes w ext ov num →
  files w !! (W ++ suffix ext ov num) = None →
  create_error (W ++ suffix ext ov num) = None →
  activation create_error w W ext ov num
  = Return (W ++ suffix ext ov num)
      {| maxSafeBytes := maxSafeBytes w;
         files := <[W ++ suffix ext ov num := []]> (files w) |}.
Proof.
  intros Hfit Hnone Hcreate. unfold activation, outputFile.
  rewrite truncated_withoutExt_fits by done.
  unfold pathExists.
  rewrite bool_decide_eq_false_2 by (rewrite Hnone; by intros [? ?]).
  simpl. by rewrite Hcreate.
Qed.

Lemma ensureSafePath_skips_taken w W ext (n : N) (j : nat) :
  ∀ (k : N) (fuel : nat),
    (k + N.of_nat j = n)%N →
    (j < fuel)%nat →
    (∀ i, (i ≤ n)%N →
          Buffer_byteLength (path_basename W)
          ≤ maxSafePrefixBytes w ext false i) →
    (∀ i, (i < n)%N → is_Some (files w !! (W ++ suffix ext false i))) →
    files w !! (W ++ suffix ext false n) = None →
    create_error (W ++ suffix ext false n) = None →
    ensureSafePath create_error fuel w W ext false k
    = Resolved (W ++ suffix ext false n)
        {| maxSafeBytes := maxSafeBytes w;
           files := <[W ++ suffix ext false n := []]> (files w) |}.
Proof.
  induction j as [|j IH]; intros k fuel Hk Hfuel Hfit Htaken Hfree Hcreate;
    (destruct fuel as [|fuel]; [lia|]); simpl.
  - assert (k = n) as -> by lia.
    rewrite activation_free; [done|apply Hfit; lia|done|done].
  - rewrite activation_taken; [|apply Hfit; lia|apply Htaken; lia].
    apply IH; [lia|lia|done..].
Qed.

(** C1, as the code has it.  When the canonical path and its variants
    " (1)" to " (N-1)" exist, the variant " (N)" does not and the file
    system accepts it, [overwrite] is off, and the base name fits the
    budget with each of these suffixes (so that nothing is truncated), the
    call returns the canonical name with the suffix " (N)" and creates an
    empty file there; every file that existed keeps its content. *)
Theorem dedup_returns_first_free_suffix fuel w W ext (n : N) :
  (1 ≤ n)%N →
  (∀ i, (i ≤ n)%N →
        Buffer_byteLength (path_basename W)
        ≤ maxSafePrefixBytes w ext false i) →
  is_Some (files w !! (W ++ js "." ++ ext)) →
  (∀ i, (1 ≤ i < n)%N →
        is_Some (files w !! (W ++ js " (" ++ show_N i ++ js ")."  ++ ext))) →
  files w !! (W ++ js " (" ++ show_N n ++ js ")." ++ ext) = None →
  create_error (W ++ js " (" ++ show_N n ++ js ")." ++ ext) = None →
  (N.to_nat n < fuel)%nat →
  let p := W ++ js " (" ++ show_N n ++ js ")." ++ ext in
  ensureSafePath create_error fuel w W ext false 0
  = Resolved p {| maxSafeBytes := maxSafeBytes w;
                  files := <[p := []]> (files w) |}
  ∧ (<[p := []]> (files w)) !! p = Some []
  ∧ ∀ q, is_Some (files w !! q) → (<[p := []]> (files w)) !! q = files w !! q.
Proof.
  intros Hn Hfit Hcanon Htaken Hfree Hcreate Hfuel p.
  assert (Hsuffix : ∀ i, (1 ≤ i)%N →
            W ++ suffix ext false i = W ++ js " (" ++ show_N i ++ js ")." ++ ext).
  { intros i Hi. unfold suffix.
    replace (i =? 0)%N with false by (symmetry; apply N.eqb_neq; lia).
    simpl. by rewrite <- !app_assoc. }
  split; [|split].
  - subst p. rewrite <- (Hsuffix n Hn).
    apply (ensureSafePath_skips_taken w W ext n (N.to_nat n)); try done.
    + lia.
    + intros i Hi. destruct (decide (i = 0%N)) as [->|Hne]; [done|].
      rewrite Hsuffix by lia. apply Htaken. lia.
    + by rewrite Hsuffix.
    + by rewrite Hsuffix.
  - apply lookup_insert_eq.
  - intros q Hq. apply lookup_insert_ne. intros Heq.
    rewrite <- Heq in Hq. unfold p in Hq. rewrite Hfree in Hq.
    by destruct Hq.
Qed.

(** ** Truncation *)

Lemma suffix_cases ext ov num :
  suffix ext ov num = js "." ++ ext
  ∨ suffix ext ov num = js " (" ++ show_N num ++ js ")" ++ js "." ++ ext.
Proof.
  unfold suffix. destruct (_ && _); [right | by left].
  by rewrite <- !app_assoc.
Qed.

Lemma suffix_no_separator ext ov num :
  no_separator ext → no_separator (suffix ext ov num).
Proof.
  intros Hext.
  assert (Hdigits : no_separator (show_N num)).
  { eapply Forall_impl; [apply show_N_digits|].
    unfold CHAR_FORWARD_SLASH. simpl. lia. }
  unfold no_separator in *.
  destruct (suffix_cases ext ov num) as [-> | ->];
    rewrite ?Forall_app; repeat split; try done;
    repeat constructor; by vm_compute.
Qed.

Lemma suffix_head ext ov num :
  match suffix ext ov num with
  | d :: _ => isLowSurrogate d = false
  | [] => True
  end.
Proof. by destruct (suffix_cases ext ov num) as [-> | ->]. Qed.

Lemma suffix_ascii ext ov num :
  Forall (λ c, c < 0x80) ext → Forall (λ c, c < 0x80) (suffix ext ov num).
Proof.
  intros Hext.
  assert (Hdigits : Forall (λ c, c < 0x80) (show_N num)).
  { eapply Forall_impl; [apply show_N_digits|]. simpl. lia. }
  destruct (suffix_cases ext ov num) as [-> | ->];
    rewrite ?Forall_app; repeat split; try done;
    repeat constructor; by vm_compute.
Qed.

Lemma Buffer_byteLength_app (t s : jsstring) :
  match s with d :: _ => isLowSurrogate d = false | [] => True end →
  Buffer_byteLength (t ++ s) = Buffer_byteLength t + Buffer_byteLength s.
Proof.
  intros Hs. unfold Buffer_byteLength, byteLength.
  rewrite (Buffer_from_app (length t)), length_app by done. lia.
Qed.

(** The truncated base name is a plain segment when the cut falls between
    two characters and leaves at least three bytes. *)
Lemma truncated_plain_segment (base : jsstring) (limit : Z) :
  no_separator base →
  3 ≤ limit < byteLength (Buffer_from base) →
  Buffer_from (Buffer_toString (Buffer_slice0 (Buffer_from base) limit))
  = Buffer_slice0 (Buffer_from base) limit →
  plain_segment (Buffer_toString (Buffer_slice0 (Buffer_from base) limit))
  ∧ Buffer_byteLength
      (Buffer_toString (Buffer_slice0 (Buffer_from base) limit)) = limit.
Proof.
  intros Hbase Hlimit Hround.
  set (t := Buffer_toString _) in *.
  assert (Hslice : Buffer_slice0 (Buffer_from base) limit
                   = take (Z.to_nat limit) (Buffer_from base)).
  { unfold Buffer_slice0. by replace (limit <? 0) with false by lia. }
  assert (Hlen : Buffer_byteLength t = limit).
  { unfold Buffer_byteLength, byteLength in *.
    rewrite Hround, Hslice, length_take_le; lia. }
  split; [|done]. split; [|repeat split].
  - apply Forall_forall. intros c Hc ->.
    apply (Buffer_from_ascii_byte (length t) t) in Hc; [|done|by vm_compute].
    rewrite Hround, Hslice in Hc.
    assert (Hin : CHAR_FORWARD_SLASH ∈ Buffer_from base).
    { rewrite <- (take_drop (Z.to_nat limit)). apply elem_of_app. by left. }
    apply (Buffer_from_ascii_byte (length base) base) in Hin;
      [|done|by vm_compute].
    unfold no_separator in Hbase. rewrite Forall_forall in Hbase.
    by apply (Hbase _ Hin).
  - intros Heq. rewrite Heq in Hlen. vm_compute in Hlen. lia.
  - intros Heq. rewrite Heq in Hlen. vm_compute in Hlen. lia.
  - intros Heq. rewrite Heq in Hlen. vm_compute in Hlen. lia.
Qed.

(** C2, as the code has it.  When the base name of [withoutExt] has more
    bytes than the prefix budget ([maxSafeBytes] minus the length of the
    suffix in UTF-16 code units), the budget is at least three bytes, the
    extension has no path separator and the cut at the budget does not
    split a multi-byte character, the base name of the candidate has
    exactly prefix budget + byte length of the suffix bytes; for an ASCII
    extension that is [maxSafeBytes].  A path the activation returns is
    this candidate. *)
Theorem truncated_basename_length w W ext ov num :
  let limit := maxSafePrefixBytes w ext ov num in
  let filenameBuf := Buffer_from (path_basename W) in
  limit < byteLength filenameBuf →
  3 ≤ limit →
  no_separator ext →
  Buffer_from (Buffer_toString (Buffer_slice0 filenameBuf limit))
  = Buffer_slice0 filenameBuf limit →
  Buffer_byteLength (path_basename (fullPath w W ext ov num))
  = limit + Buffer_byteLength (suffix ext ov num)
  ∧ (Forall (λ c, c < 0x80) ext →
     Buffer_byteLength (path_basename (fullPath w W ext ov num))
     = maxSafeBytes w)
  ∧ (∀ p w',
       activation create_error w W ext ov num = Return p w' →
       Buffer_byteLength (path_basename p)
       = limit + Buffer_byteLength (suffix ext ov num)).
Proof.
  intros limit filenameBuf Hlong Hlimit Hext Hround.
  destruct (truncated_plain_segment (path_basename W) limit)
    as [Hplain Hlen]; [apply path_basename_no_separator|done|done|].
  fold filenameBuf in Hplain, Hlen.
  set (t := Buffer_toString (Buffer_slice0 filenameBuf limit)) in *.
  pose proof (suffix_no_separator ext ov num Hext) as Hsuffix.
  pose proof (suffix_head ext ov num) as Hhead.
  set (s := suffix ext ov num) in *.
  assert (Hfull : fullPath w W ext ov num
                  = path_join [path_dirname W; t] ++ s).
  { unfold fullPath, truncated_withoutExt. fold limit filenameBuf.
    by replace (limit <? byteLength filenameBuf) with true by lia. }
  assert (Hts : no_separator (t ++ s)).
  { apply Forall_app. split; [apply Hplain | done]. }
  assert (Hbase : path_basename (fullPath w W ext ov num) = t ++ s).
  { rewrite Hfull.
    destruct (path_join_last_segment (path_dirname W) t)
      as [-> | [parent ->]];
      [apply path_dirname_nonempty | done | by apply path_basename_plain |].
    rewrite <- app_assoc. simpl. apply path_basename_last_segment; [done|].
    destruct Hplain as (_ & Hne & _). by destruct t. }
  assert (Hbytes : Buffer_byteLength (path_basename (fullPath w W ext ov num))
                   = limit + Buffer_byteLength s).
  { by rewrite Hbase, Buffer_byteLength_app, Hlen. }
  split; [done|]. split.
  - intros Hascii. rewrite Hbytes. unfold Buffer_byteLength.
    rewrite Buffer_from_ascii by (by apply suffix_ascii).
    unfold limit, maxSafePrefixBytes, str_length, byteLength. fold s. lia.
  - intros p w' Hret. by apply activation_Return in Hret as (-> & _).
Qed.

(** ** Termination *)

Lemma pending_zero ext w : pending ext w 0 = pending ext w 1.
Proof. reflexivity. Qed.

Lemma pending_bound ext w num : (pending ext w num ≤ size (files w))%nat.
Proof.
  unfold pending. rewrite <- (size_dom (files w)).
  apply subseteq_size. intros p Hp. by apply elem_of_filter in Hp as [_ ?].
Qed.

Lemma pending_step ext w prefix num :
  (1 ≤ num)%N →
  is_Some (files w !! (prefix ++ suffix ext false num)) →
  (pending ext w (num + 1) < pending ext w num)%nat.
Proof.
  intros Hnum Hsome. unfold pending. apply subset_size. split.
  - intros p Hp. apply elem_of_filter in Hp as [Hp Hdom].
    apply elem_of_filter. split; [|done].
    unfold awaits in *. destruct (dup_index ext p); [|done].
    apply Is_true_true in Hp. apply Is_true_true.
    apply N.leb_le in Hp. apply N.leb_le. lia.
  - intros Hsub.
    assert (Hin : prefix ++ suffix ext false num
                  ∈ filter (λ p, awaits ext (num + 1) p) (dom (files w))).
    { apply Hsub, elem_of_filter. split; [|by apply elem_of_dom].
      unfold awaits. rewrite dup_index_suffix by done.
      apply Is_true_true, N.leb_le. lia. }
    apply elem_of_filter in Hin as [Hin _]. unfold awaits in Hin.
    rewrite dup_index_suffix in Hin by done.
    apply Is_true_true, N.leb_le in Hin. lia.
Qed.

Lemma suffix_length_positive ext ov num :
  1 ≤ str_length (suffix ext ov num).
Proof.
  unfold str_length.
  destruct (suffix_cases ext ov num) as [-> | ->];
    rewrite !length_app; simpl; lia.
Qed.

Lemma retry_measure_next w ext prefix num :
  is_Some (files w !! (prefix ++ suffix ext false num)) →
  (retry_measure w ext false (num + 1) < retry_measure w ext false num)%nat.
Proof.
  intros Hsome. unfold retry_measure.
  replace (num + 1 =? 0)%N with false by (symmetry; apply N.eqb_neq; lia).
  destruct (num =? 0)%N eqn:Hnum.
  - apply N.eqb_eq in Hnum as ->. rewrite pending_zero.
    change (0 + 1)%N with 1%N. lia.
  - apply N.eqb_neq in Hnum.
    pose proof (pending_step ext w prefix num) as Hstep.
    specialize (Hstep ltac:(lia) Hsome). lia.
Qed.

Lemma retry_measure_shorter w ext ov num :
  MIN_PREFIX_BYTES ≤ maxSafePrefixBytes w ext ov num →
  (retry_measure (set_maxSafeBytes w (maxSafeBytes w - 1)) ext ov num
   < retry_measure w ext ov num)%nat.
Proof.
  intros Hfloor. unfold retry_measure, maxSafePrefixBytes in *.
  pose proof (suffix_length_positive ext ov num).
  change (pending ext (set_maxSafeBytes w (maxSafeBytes w - 1)) num)
    with (pending ext w num).
  simpl. lia.
Qed.

Lemma ensureSafePath_enough_fuel fuel :
  ∀ w W ext ov num,
    (retry_measure w ext ov num < fuel)%nat →
    ensureSafePath create_error fuel w W ext ov num ≠ OutOfFuel.
Proof.
  induction fuel as [|fuel IH]; intros w W ext ov num Hfuel; [lia|].
  simpl.
  destruct (activation create_error w W ext ov num) as [W'|W'|p w'|err]
    eqn:Hact; [| |done|done].
  - apply activation_RetryNext in Hact as (_ & -> & Hsome).
    apply IH. unfold fullPath in Hsome.
    apply retry_measure_next in Hsome. lia.
  - apply activation_RetryShorter in Hact as (_ & _ & _ & Hfloor).
    apply IH. apply retry_measure_shorter in Hfloor. lia.
Qed.

Lemma ensureSafePath_more_fuel fuel :
  ∀ fuel' w W ext ov num,
    (fuel ≤ fuel')%nat →
    ensureSafePath create_error fuel w W ext ov num ≠ OutOfFuel →
    ensureSafePath create_error fuel' w W ext ov num
    = ensureSafePath create_error fuel w W ext ov num.
Proof.
  induction fuel as [|fuel IH]; intros fuel' w W ext ov num Hle; [done|].
  destruct fuel' as [|fuel']; [lia|]. simpl.
  destruct (activation create_error w W ext ov num); try done;
    apply IH; lia.
Qed.

Lemma candidates_steps fuel :
  ∀ w W ext ov num (i : nat) (c c' : N * Z * jsstring),
    candidates create_error fuel w W ext ov num !! i = Some c →
    candidates create_error fuel w W ext ov num !! S i = Some c' →
    retry_step w ext ov c c'.
Proof.
  induction fuel as [|fuel IH]; intros w W ext ov num i c c'; [done|].
  simpl. destruct i as [|i].
  - intros [= <-]. simpl.
    destruct (activation create_error w W ext ov num) as [W'|W'|p w'|err]
      eqn:Hact; [| |done|done]; (destruct fuel as [|fuel]; [done|]);
      simpl; intros [= <-]; simpl.
    + apply activation_RetryNext in Hact as (_ & -> & Hsome). by left.
    + apply activation_RetryShorter in Hact as (_ & _ & _ & Hfloor).
      right. by repeat split.
  - simpl.
    destruct (activation create_error w W ext ov num) as [W'|W'|p w'|err];
      [| |done|done]; intros Hc Hc'.
    + by apply (IH _ _ _ _ _ _ _ _ Hc Hc').
    + by apply (IH (set_maxSafeBytes w (maxSafeBytes w - 1))
                  _ _ _ _ _ _ _ Hc Hc').
Qed.

Lemma recoveries_bound fuel :
  ∀ w W ext ov num,
    (recoveries create_error fuel w W ext ov num
     ≤ Z.to_nat (maxSafeBytes w - MIN_PREFIX_BYTES))%nat.
Proof.
  induction fuel as [|fuel IH]; intros w W ext ov num; simpl; [lia|].
  destruct (activation create_error w W ext ov num) as [W'|W'|p w'|err]
    eqn:Hact; [apply IH| |lia|lia].
  apply activation_RetryShorter in Hact as (_ & _ & _ & Hfloor).
  pose proof (IH (set_maxSafeBytes w (maxSafeBytes w - 1)) W' ext ov num)
    as Hrec.
  pose proof (suffix_length_positive ext ov num).
  unfold maxSafePrefixBytes in Hfloor. simpl in Hrec. lia.
Qed.

(** C6, as the code has it.  With finitely many files, a file system
    whose answer depends on the path only and a budget that is a safe
    integer (so that [maxSafeBytes -= 1] takes exactly one off it), a call
    ends in [Resolved] or [Failed] within (number of files) + (budget above
    the floor) + 2 activations, and more fuel does not change the result.  From one
    candidate to the next either the duplicate index grows by one (the
    candidate exists) or the budget shrinks by one (ENAMETOOLONG at a
    prefix budget at the floor or above), which happens at most (budget
    above the floor) times.  Candidates with different duplicate indices
    are different paths as long as both indices are at least 1. *)
Theorem ensureSafePath_terminates w W ext ov num :
  safe_budget w →
  let fuel := (size (files w)
               + Z.to_nat (maxSafeBytes w - MIN_PREFIX_BYTES) + 2)%nat in
  ((∃ p w', ensureSafePath create_error fuel w W ext ov num = Resolved p w')
   ∨ (∃ err w',
        ensureSafePath create_error fuel w W ext ov num = Failed err w'))
  ∧ (∀ fuel', (fuel ≤ fuel')%nat →
       ensureSafePath create_error fuel' w W ext ov num
       = ensureSafePath create_error fuel w W ext ov num)
  ∧ (∀ fuel' i c c',
       candidates create_error fuel' w W ext ov num !! i = Some c →
       candidates create_error fuel' w W ext ov num !! S i = Some c' →
       retry_step w ext ov c c')
  ∧ (∀ fuel',
       (recoveries create_error fuel' w W ext ov num
        ≤ Z.to_nat (maxSafeBytes w - MIN_PREFIX_BYTES))%nat)
  ∧ (∀ prefix prefix' k k',
       (1 ≤ k)%N → (1 ≤ k')%N → k ≠ k' →
       prefix ++ suffix ext false k ≠ prefix' ++ suffix ext false k').
Proof.
  intros _ fuel.
  assert (Hfuel : ensureSafePath create_error fuel w W ext ov num
                  ≠ OutOfFuel).
  { apply ensureSafePath_enough_fuel. unfold retry_measure, fuel.
    pose proof (pending_bound ext w num).
    destruct ov, (num =? 0)%N; lia. }
  split; [|split; [|split; [|split]]].
  - destruct (ensureSafePath create_error fuel w W ext ov num)
      as [p w'|err w'|]; [left|right|done]; eauto.
  - intros fuel' Hle. by apply ensureSafePath_more_fuel.
  - intros fuel'. apply candidates_steps.
  - intros fuel'. apply recoveries_bound.
  - intros prefix prefix' k k' Hk Hk' Hne Heq.
    by apply Hne, (suffix_index_inj ext prefix prefix').
Qed.

End ResolverFacts.

(** ** The theorems at work on concrete runs *)

Lemma name_too_long_floor_witness :
  let w := {| maxSafeBytes := 67; files := ∅ |} in
  maxSafePrefixBytes w (js "png") false 0 = 63
  ∧ ensureSafePath reject_all 4 w (js "/s/a") (js "png") false 0
    = Failed ENAMETOOLONG w
  ∧ recoveries reject_all 4 w (js "/s/a") (js "png") false 0 = 0%nat.
Proof.
  intros w. split; [reflexivity|].
  destruct (name_too_long_floor reject_all 3 w (js "/s/a") (js "png")
              false 0 ENAMETOOLONG) as [Hbelow _];
    [reflexivity | reflexivity | reflexivity |].
  apply Hbelow. reflexivity.
Defined.

(** C4, as the spec states it, fails at the floor itself: with a prefix
    budget of exactly [MIN_PREFIX_BYTES] an ENAMETOOLONG failure is
    recovered, and the error is thrown one attempt later. *)
Lemma name_too_long_at_floor_retries :
  let w := {| maxSafeBytes := 68; files := ∅ |} in
  maxSafePrefixBytes w (js "png") false 0 = MIN_PREFIX_BYTES
  ∧ reject_all (fullPath w (js "/s/a") (js "png") false 0) = Some ENAMETOOLONG
  ∧ activation reject_all w (js "/s/a") (js "png") false 0
    = RetryShorter (js "/s/a")
  ∧ recoveries reject_all 4 w (js "/s/a") (js "png") false 0 = 1%nat
  ∧ ensureSafePath reject_all 4 w (js "/s/a") (js "png") false 0
    = Failed ENAMETOOLONG {| maxSafeBytes := 67; files := ∅ |}.
Proof. repeat split. Qed.

Lemma maxSafeBytes_non_increasing_witness :
  let o := ensureSafePath (name_max 255) 5 fresh_world accented_path
             (js "png") false 0 in
  let w1 := world_or fresh_world o in
  world_after o = Some w1
  ∧ recoveries (name_max 255) 5 fresh_world accented_path (js "png") false 0
    = 1%nat
  ∧ maxSafeBytes w1 = 253
  ∧ (candidates (name_max 255) 5 w1 accented_path (js "png") false 0).*1
    = [(0%N, 253); (1%N, 253)].
Proof.
  intros o w1.
  assert (Hafter : world_after o = Some w1) by reflexivity.
  split; [exact Hafter|].
  split; [vm_compute; reflexivity|].
  split; [|vm_compute; reflexivity].
  destruct (maxSafeBytes_non_increasing (name_max 255) 5 fresh_world
              accented_path (js "png") false 0 w1 Hafter) as [Hbudget _].
  rewrite Hbudget. vm_compute. reflexivity.
Defined.

Lemma failed_call_keeps_decrements_witness :
  ∃ w' : World,
    ensureSafePath reject_all 200 fresh_world (js "/s/a") (js "png") false 0
    = Failed ENAMETOOLONG w'
    ∧ recoveries reject_all 200 fresh_world (js "/s/a") (js "png") false 0
      = 187%nat
    ∧ maxSafeBytes w' = 254 - 187
    ∧ files w' = files fresh_world.
Proof.
  eexists. split; [vm_compute; reflexivity|].
  split; [vm_compute; reflexivity|].
  destruct (failed_call_keeps_decrements reject_all 200 fresh_world
              (js "/s/a") (js "png") false 0 ENAMETOOLONG
              {| maxSafeBytes := 67; files := ∅ |} 187)
    as (Hb & _ & Hf & _);
    [vm_compute; reflexivity | vm_compute; reflexivity | lia |].
  split; [exact Hb | exact Hf].
Defined.

Lemma overwrite_targets_canonical_path_witness :
  let w := {| maxSafeBytes := 254;
              files := {[ shot_8280 ++ js ".png" := [137; 80; 78; 71] ]} |} in
  let p := shot_8280 ++ js ".png" in
  let wr := {| maxSafeBytes := 254; files := <[p := []]> (files w) |} in
  fullPath w shot_8280 (js "png") true 0 = p
  ∧ ensureSafePath accept_all 3 w shot_8280 (js "png") true 7
    = Resolved p wr
  ∧ ∀ num', ensureSafePath accept_all 3 wr shot_8280 (js "png") true num'
            = Resolved p wr.
Proof.
  intros w p wr.
  assert (Hp : fullPath w shot_8280 (js "png") true 0 = p)
    by (vm_compute; reflexivity).
  split; [exact Hp|].
  destruct (overwrite_targets_canonical_path accept_all 2 w shot_8280
              (js "png") 7) as (_ & _ & _ & _ & Haccepted & _).
  destruct (Haccepted eq_refl) as [Hfirst Hagain].
  rewrite Hp in Hfirst, Hagain.
  split; [exact Hfirst | exact Hagain].
Defined.

(** C3, as the spec states it, fails when the base name exceeds the prefix
    budget: with [overwrite] set, on a file system that takes every name,
    the call for a base name of 300 bytes returns the path with the base
    name cut to 250 bytes, not the unsuffixed canonical path. *)
Lemma overwrite_returns_truncated_path :
  accept_all (longer_path ++ js ".png") = None
  ∧ verdict
      (ensureSafePath accept_all 3 fresh_world longer_path (js "png") true 0)
    = Some (inr (js "/s/" ++ replicate 250 97 ++ js ".png"))
  ∧ js "/s/" ++ replicate 250 97 ++ js ".png" ≠ longer_path ++ js ".png".
Proof.
  split; [reflexivity|]. split; [vm_compute; reflexivity|].
  intros Heq. apply (f_equal length) in Heq. vm_compute in Heq.
  discriminate Heq.
Qed.

Lemma dedup_returns_first_free_suffix_witness :
  let p := shot_8280 ++ js " (2).png" in
  ensureSafePath accept_all 5 after_two_runs shot_8280 (js "png") false 0
  = Resolved p {| maxSafeBytes := 254;
                  files := <[p := []]> (files after_two_runs) |}
  ∧ (<[p := []]> (files after_two_runs)) !! p = Some []
  ∧ ∀ q, is_Some (files after_two_runs !! q) →
         (<[p := []]> (files after_two_runs)) !! q
         = files after_two_runs !! q.
Proof.
  apply (dedup_returns_first_free_suffix accept_all 5 after_two_runs
           shot_8280 (js "png") 2).
  - lia.
  - intros i Hi. assert (i = 0%N ∨ i = 1%N ∨ i = 2%N) as [-> | [-> | ->]] by lia;
      apply Z.leb_le; vm_compute; reflexivity.
  - eexists. vm_compute. reflexivity.
  - intros i Hi. assert (i = 1%N) as -> by lia.
    eexists. vm_compute. reflexivity.
  - vm_compute. reflexivity.
  - reflexivity.
  - vm_compute. lia.
Defined.

(** C1, as the spec states it, fails when the base name fills the budget:
    the canonical path exists, the variant " (1)" is free and accepted, and
    the call returns the suffix " (1)" on a base name cut to 246 bytes, not
    on the canonical name. *)
Lemma dedup_truncates_canonical_name :
  is_Some (files long_taken !! (long_path ++ js ".png"))
  ∧ files long_taken !! (long_path ++ js " (1).png") = None
  ∧ accept_all (long_path ++ js " (1).png") = None
  ∧ verdict
      (ensureSafePath accept_all 5 long_taken long_path (js "png") false 0)
    = Some (inr (js "/s/" ++ replicate 246 97 ++ js " (1).png"))
  ∧ js "/s/" ++ replicate 246 97 ++ js " (1).png"
    ≠ long_path ++ js " (1).png".
Proof.
  split; [eexists; vm_compute; reflexivity|].
  split; [vm_compute; reflexivity|].
  split; [reflexivity|].
  split; [vm_compute; reflexivity|].
  intros Heq. apply (f_equal length) in Heq. vm_compute in Heq.
  discriminate Heq.
Qed.

Lemma truncated_basename_length_witness :
  maxSafePrefixBytes fresh_world (js "png") false 0 = 250
  ∧ Buffer_byteLength (path_basename accented_path_even) = 300
  ∧ Buffer_byteLength
      (path_basename (fullPath fresh_world accented_path_even (js "png")
                        false 0))
    = 250 + Buffer_byteLength (suffix (js "png") false 0)
  ∧ Buffer_byteLength
      (path_basename (fullPath fresh_world accented_path_even (js "png")
                        false 0))
    = 254.
Proof.
  split; [reflexivity|]. split; [vm_compute; reflexivity|].
  destruct (truncated_basename_length accept_all fresh_world
              accented_path_even (js "png") false 0)
    as (Hlen & Hascii & _).
  - vm_compute. reflexivity.
  - vm_compute. intros [=].
  - repeat constructor; by vm_compute.
  - vm_compute. reflexivity.
  - split; [exact Hlen|]. apply Hascii. repeat constructor; by vm_compute.
Defined.

(** C2, as the spec states it, fails when the cut splits a character, also
    on a file system that takes at most 255 bytes per name: the base name
    has 302 bytes, the prefix budget is 250, the cut falls after the second
    byte of the 83rd three-byte character, [toString] turns the two lone
    bytes into one U+FFFD, which takes three bytes, and the call returns,
    without any recovery, a base name of 255 bytes, not of 250 + 4. *)
Lemma truncation_splits_character :
  maxSafePrefixBytes fresh_world (js "png") false 0 = 250
  ∧ Buffer_byteLength (path_basename euro_path) = 302
  ∧ Buffer_byteLength (suffix (js "png") false 0) = 4
  ∧ verdict
      (ensureSafePath (name_max 255) 3 fresh_world euro_path (js "png")
         false 0)
    = Some (inr (js "/s/ab" ++ mjoin (replicate 82 [0x20AC])
                   ++ [REPLACEMENT] ++ js ".png"))
  ∧ recoveries (name_max 255) 3 fresh_world euro_path (js "png") false 0
    = 0%nat
  ∧ Buffer_byteLength
      (path_basename (js "/s/ab" ++ mjoin (replicate 82 [0x20AC])
                        ++ [REPLACEMENT] ++ js ".png"))
    = 255.
Proof. repeat split; vm_compute; reflexivity. Qed.

(** A cut that splits a character does not always change the length: here
    the cut keeps three bytes of a four-byte character, which [toString]
    turns into one U+FFFD of three bytes, and the base name has 250 + 4
    bytes. *)
Lemma split_cut_keeps_length :
  let filenameBuf := Buffer_from (path_basename emoji_path) in
  maxSafePrefixBytes fresh_world (js "png") false 0 = 250
  ∧ byteLength filenameBuf = 283
  ∧ Buffer_from (Buffer_toString (Buffer_slice0 filenameBuf 250))
    ≠ Buffer_slice0 filenameBuf 250
  ∧ Buffer_byteLength
      (path_basename (fullPath fresh_world emoji_path (js "png") false 0))
    = 254.
Proof.
  intros filenameBuf. split; [reflexivity|].
  split; [vm_compute; reflexivity|].
  split; [|vm_compute; reflexivity].
  intros Heq. vm_compute in Heq. discriminate Heq.
Qed.

Lemma ensureSafePath_terminates_witness :
  verdict
    (ensureSafePath accept_all 194 after_two_runs shot_8280 (js "png")
       false 0)
  = Some (inr (shot_8280 ++ js " (2).png"))
  ∧ (∀ fuel', (194 ≤ fuel')%nat →
       ensureSafePath accept_all fuel' after_two_runs shot_8280 (js "png")
         false 0
       = ensureSafePath accept_all 194 after_two_runs shot_8280 (js "png")
           false 0)
  ∧ shot_8280 ++ suffix (js "png") false 1
    ≠ shot_8280 ++ suffix (js "png") false 2.
Proof.
  destruct (ensureSafePath_terminates accept_all after_two_runs shot_8280
              (js "png") false 0) as (_ & Hmore & _ & _ & Hdistinct);
    [by vm_compute|].
  split; [vm_compute; reflexivity|].
  split; [exact Hmore | apply Hdistinct; lia].
Defined.

(** C6, as the spec states it, fails in its remark on the exists branch:
    the candidate of index 0 exists, and the candidate of index 1, built
    from the base name cut to 246 bytes, is the same path, which is probed
    a second time. *)
Lemma candidate_probed_twice :
  is_Some (files marked_taken !! (marked_path ++ js ".png"))
  ∧ candidates accept_all 5 marked_taken marked_path (js "png") false 0
    = [(0%N, 254, marked_path ++ js ".png");
       (1%N, 254, marked_path ++ js ".png");
       (2%N, 254, js "/s/" ++ replicate 246 97 ++ js " (2).png")]
  ∧ verdict
      (ensureSafePath accept_all 5 marked_taken marked_path (js "png")
         false 0)
    = Some (inr (js "/s/" ++ replicate 246 97 ++ js " (2).png")).
Proof.
  split; [eexists; vm_compute; reflexivity|].
  split; vm_compute; reflexivity.
Qed.

(** ** The scenarios of the specification *)

(** The first run of the e2e test: the titles, the failure marker and the
    extension under the folder of the spec. *)
Example scenario_first_run :
  verdict (getPath accept_all 3 fresh_world data_8280 (js "png")
             (js "/screenshots") false)
  = Some (inr (js "/screenshots/spec1.cy.js/spec1 -- testCase1 (failed).png")).
Proof. vm_compute. reflexivity. Qed.

(** The second run without [overwrite] gets the suffix " (1)". *)
Example scenario_second_run :
  let w1 := world_or fresh_world
              (getPath accept_all 3 fresh_world data_8280 (js "png")
                 (js "/screenshots") false) in
  verdict (getPath accept_all 3 w1 data_8280 (js "png")
             (js "/screenshots") false)
  = Some (inr (js "/screenshots/spec1.cy.js/spec1 -- testCase1 (failed) (1).png")).
Proof. vm_compute. reflexivity. Qed.

(** The second run with [overwrite] gets the path of the first. *)
Example scenario_second_run_overwrite :
  let w1 := world_or fresh_world
              (getPath accept_all 3 fresh_world data_8280 (js "png")
                 (js "/screenshots") true) in
  verdict (getPath accept_all 3 w1 data_8280 (js "png")
             (js "/screenshots") true)
  = Some (inr (js "/screenshots/spec1.cy.js/spec1 -- testCase1 (failed).png")).
Proof. vm_compute. reflexivity. Qed.

(** An ENAMETOOLONG failure on the first creation under the budget 254:
    the budget becomes 253 and the retry succeeds with one byte less. *)
Example scenario_name_too_long :
  let o := ensureSafePath (name_max 253) 3 fresh_world
             (js "/s/" ++ replicate 300 97) (js "png") false 0 in
  verdict o = Some (inr (js "/s/" ++ replicate 249 97 ++ js ".png"))
  ∧ maxSafeBytes (world_or fresh_world o) = 253
  ∧ recoveries (name_max 253) 3 fresh_world
      (js "/s/" ++ replicate 300 97) (js "png") false 0 = 1%nat.
Proof. repeat split; vm_compute; reflexivity. Qed.

(** Titles that are not strings, and a name with separators and characters
    that sanitization removes. *)
Example scenario_odd_titles :
  getPath_withoutExt
    {| specName := js "a/b\c.cy.js"; name := [];
       titles := [VNull; VNumber (NumInt 42); VString (js "a<b>:c")];
       testFailure := false; testAttemptIndex := Some 2 |}
    (js "shots")
  = inr (js "shots/a/b/c.cy.js/ -- 42 -- abc (attempt 3)").
Proof. vm_compute. reflexivity. Qed.

(** An explicit name with separators, a failed test and a third attempt:
    the failure marker comes before the attempt marker, both on the last
    segment. *)
Example scenario_both_markers :
  getPath_withoutExt
    {| specName := js "spec1.cy.js"; name := js "login/after:submit";
       titles := []; testFailure := true; testAttemptIndex := Some 2 |}
    (js "/screenshots")
  = inr (js "/screenshots/spec1.cy.js/login/aftersubmit (failed) (attempt 3)").
Proof. vm_compute. reflexivity. Qed.

(* ===================================================================== *)
(** * Further properties of [ensureSafePath] and [getPath] *)
(* ===================================================================== *)

Section ResolverOutcomes.

Variable create_error : jsstring → option JSError.

(** ** What a call does to the files *)

Lemma ensureSafePath_Resolved_inv fuel :
  ∀ w W ext ov num p w',
    ensureSafePath create_error fuel w W ext ov num = Resolved p w' →
    ∃ (w0 : World) (W0 : jsstring) (n : N),
      activation create_error w0 W0 ext ov n = Return p w'
      ∧ files w0 = files w
      ∧ maxSafeBytes w0 ≤ maxSafeBytes w
      ∧ (num ≤ n)%N.
Proof.
  induction fuel as [|fuel IH]; intros w W ext ov num p w'; simpl; [done|].
  destruct (activation create_error w W ext ov num) as [W1|W1|p1 w1|err]
    eqn:Hact; [| | |done].
  - intros Hres. apply IH in Hres as (w0 & W0 & n & ? & ? & ? & ?).
    exists w0, W0, n. repeat split; try done. lia.
  - intros Hres. apply IH in Hres as (w0 & W0 & n & ? & ? & Hle & ?).
    exists w0, W0, n. simpl in Hle. repeat split; try done. lia.
  - intros [= <- <-]. exists w, W, num. repeat split; try done; lia.
Qed.

(** X3. A call that returns a path has created an empty file there and
    touched no other file; the file system accepted the path; without
    [overwrite] the path did not exist before the call, so that no existing
    file is ever emptied; the path ends with the suffix of a duplicate
    index not below the one the call started from; and [maxSafeBytes] has
    not grown. *)
Theorem resolved_path_is_reserved fuel w W ext ov num p w' :
  ensureSafePath create_error fuel w W ext ov num = Resolved p w' →
  create_error p = None
  ∧ files w' = <[p := []]> (files w)
  ∧ files w' !! p = Some []
  ∧ (∀ q, q ≠ p → files w' !! q = files w !! q)
  ∧ (ov = false → files w !! p = None)
  ∧ (∃ prefix n, (num ≤ n)%N ∧ p = prefix ++ suffix ext ov n)
  ∧ maxSafeBytes w' ≤ maxSafeBytes w.
Proof.
  intros Hres.
  apply ensureSafePath_Resolved_inv in Hres
    as (w0 & W0 & n & Hact & Hfiles & Hle & Hn).
  apply activation_Return in Hact as (Hp & Hcreate & Hex & ->). simpl.
  rewrite Hfiles in *. split; [done|]. split; [done|].
  split; [apply lookup_insert_eq|].
  split; [intros q Hq; by apply lookup_insert_ne|].
  split; [|split; [|done]].
  - intros ->. rewrite andb_true_r in Hex.
    apply bool_decide_eq_false in Hex. unfold pathExists in Hex.
    rewrite Hfiles in Hex.
    destruct (files w !! p) eqn:Hlook; [|done]. destruct Hex. eauto.
  - exists (truncated_withoutExt (maxSafePrefixBytes w0 ext ov n) W0), n.
    split; [done|]. by rewrite Hp.
Qed.

(** ** Where an error comes from *)

Lemma ensureSafePath_Failed_inv fuel :
  ∀ w W ext ov num err w',
    ensureSafePath create_error fuel w W ext ov num = Failed err w' →
    ∃ c, c ∈ candidates create_error fuel w W ext ov num
         ∧ create_error c.2 = Some err
         ∧ (ov = false → files w !! c.2 = None)
         ∧ c.1.2 = maxSafeBytes w'
         ∧ (code err = Some "ENAMETOOLONG"%string →
            c.1.2 - str_length (suffix ext ov c.1.1) < MIN_PREFIX_BYTES).
Proof.
  induction fuel as [|fuel IH]; intros w W ext ov num err w'; simpl; [done|].
  destruct (activation create_error w W ext ov num) as [W1|W1|p1 w1|err1]
    eqn:Hact; [| |done|].
  - intros Hres. apply IH in Hres as (c & ? & ? & ? & ? & ?).
    exists c. repeat split; try done. by right.
  - intros Hres. apply IH in Hres as (c & ? & ? & ? & ? & ?).
    exists c. repeat split; try done. by right.
  - intros [= <- <-].
    exists (num, maxSafeBytes w, fullPath w W ext ov num).
    unfold activation, outputFile in Hact. fold (fullPath w W ext ov num) in Hact.
    destruct (pathExists w _ && negb ov) eqn:Hex; [done|].
    destruct (create_error _) as [e|] eqn:Hcreate; [|done].
    destruct (bool_decide _ && _) eqn:Hrec; [done|].
    injection Hact as ->. simpl.
    split; [left|]. split; [done|]. split; [|split; [done|]].
    + intros ->. rewrite andb_true_r in Hex.
      apply bool_decide_eq_false in Hex.
      destruct (files w !! _) eqn:Hlook; [|done]. destruct Hex. eauto.
    + intros Hcode. rewrite bool_decide_eq_true_2 in Hrec by done.
      simpl in Hrec. apply Z.leb_gt in Hrec.
      by unfold maxSafePrefixBytes in Hrec.
Qed.

(** X2. For a request whose titles are primitive values (the values of
    [JSValue]: strings, [undefined], [null], booleans, integers and the
    special numbers), building the name throws nothing and [getPath]
    reaches [ensureSafePath].  An error it throws is then the answer of the
    file system to the creation of one of the candidates the call probed, a
    candidate that did not exist when [overwrite] is off; and an
    ENAMETOOLONG error is only thrown for a candidate whose prefix budget
    was below the floor. *)
Theorem getPath_errors_are_creation_errors fuel w data ext folder ov :
  ∃ W : jsstring,
    getPath_withoutExt data folder = inr W
    ∧ getPath create_error fuel w data ext folder ov
      = ensureSafePath create_error fuel w W ext ov 0
    ∧ ∀ err w',
        getPath create_error fuel w data ext folder ov = Failed err w' →
        ∃ c, c ∈ candidates create_error fuel w W ext ov 0
             ∧ create_error c.2 = Some err
             ∧ (ov = false → files w !! c.2 = None)
             ∧ c.1.2 = maxSafeBytes w'
             ∧ (code err = Some "ENAMETOOLONG"%string →
                c.1.2 - str_length (suffix ext ov c.1.1) < MIN_PREFIX_BYTES).
Proof.
  unfold getPath, getPath_withoutExt. rewrite names_sanitized_eq.
  eexists. split; [done|]. split; [done|].
  intros err w'. apply ensureSafePath_Failed_inv.
Qed.

(** ** Errors that are not ENAMETOOLONG *)

Lemma no_recovery_without_name_too_long fuel :
  (∀ p err, create_error p = Some err →
            code err ≠ Some "ENAMETOOLONG"%string) →
  ∀ w W ext ov num,
    recoveries create_error fuel w W ext ov num = 0%nat.
Proof.
  intros Hfs. induction fuel as [|fuel IH]; intros w W ext ov num; simpl;
    [done|].
  destruct (activation create_error w W ext ov num) as [W1|W1|p1 w1|err1]
    eqn:Hact; [apply IH| |done|done].
  apply activation_RetryShorter in Hact as (_ & _ & (err & Hcreate & Hcode) & _).
  by destruct (Hfs _ _ Hcreate).
Qed.

(** X1. On a file system that never answers ENAMETOOLONG no call makes a
    recovery or changes [maxSafeBytes], and an error of the file system on
    a candidate that is free (or to be overwritten) is thrown at once, in
    the state the call started in. *)
Theorem other_errors_are_not_retried fuel w W ext ov num :
  (∀ p err, create_error p = Some err →
            code err ≠ Some "ENAMETOOLONG"%string) →
  recoveries create_error fuel w W ext ov num = 0%nat
  ∧ (∀ w', world_after (ensureSafePath create_error fuel w W ext ov num)
           = Some w' → maxSafeBytes w' = maxSafeBytes w)
  ∧ (∀ err,
       pathExists w (fullPath w W ext ov num) && negb ov = false →
       create_error (fullPath w W ext ov num) = Some err →
       ensureSafePath create_error (S fuel) w W ext ov num = Failed err w).
Proof.
  intros Hfs.
  pose proof (no_recovery_without_name_too_long fuel Hfs w W ext ov num)
    as Hrec.
  split; [done|]. split.
  - intros w' Hw. apply ensureSafePath_budget in Hw. rewrite Hrec in Hw. lia.
  - intros err Hex Hcreate. simpl. unfold activation, outputFile.
    fold (fullPath w W ext ov num). rewrite Hex, Hcreate.
    rewrite bool_decide_eq_false_2; [done|]. by eapply Hfs.
Qed.

End ResolverOutcomes.

Lemma candidates_unfold create_error fuel w W ext ov num :
  candidates create_error (S fuel) w W ext ov num
  = (num, maxSafeBytes w, fullPath w W ext ov num)
      :: match activation create_error w W ext ov num with
         | RetryNext W' => candidates create_error fuel w W' ext ov (num + 1)
         | RetryShorter W' =>
             candidates create_error fuel
               (set_maxSafeBytes w (maxSafeBytes w - 1)) W' ext ov num
         | _ => []
         end.
Proof. reflexivity. Qed.

(** The first candidate of a call that meets no existing file, and the
    candidates after an ENAMETOOLONG recovery. *)
Lemma meets_no_file_head create_error fuel w W ext ov num :
  meets_no_file create_error (S fuel) w W ext ov num →
  pathExists w (fullPath w W ext ov num) && negb ov = false.
Proof.
  unfold meets_no_file. rewrite candidates_unfold.
  intros Hex. by apply Forall_inv in Hex.
Qed.

Lemma meets_no_file_shorter create_error fuel w W ext ov num W' :
  meets_no_file create_error (S fuel) w W ext ov num →
  activation create_error w W ext ov num = RetryShorter W' →
  meets_no_file create_error fuel
    (set_maxSafeBytes w (maxSafeBytes w - 1)) W' ext ov num.
Proof.
  unfold meets_no_file. rewrite candidates_unfold.
  intros Hex Hact. rewrite Hact in Hex.
  apply Forall_inv_tail in Hex. exact Hex.
Qed.

Section ResolverRuns.

Variable create_error : jsstring → option JSError.

(** ** Successive runs *)

Lemma suffix_zero ext : suffix ext false 0 = js "." ++ ext.
Proof. reflexivity. Qed.

Lemma suffix_nonzero ext (k : N) :
  (1 ≤ k)%N →
  suffix ext false k = js " (" ++ show_N k ++ js ")" ++ js "." ++ ext.
Proof.
  intros Hk. unfold suffix.
  replace (k =? 0)%N with false by (symmetry; apply N.eqb_neq; lia).
  simpl. by rewrite <- !app_assoc.
Qed.

Lemma suffix_zero_nonzero ext (k : N) :
  (1 ≤ k)%N → suffix ext false 0 ≠ suffix ext false k.
Proof.
  intros Hk Heq. rewrite suffix_zero, suffix_nonzero in Heq by done.
  apply (f_equal head) in Heq. by vm_compute in Heq.
Qed.

Lemma variant_inj W ext (i j : nat) :
  variant W ext i = variant W ext j → i = j.
Proof.
  unfold variant. intros Heq. apply app_inv_head in Heq.
  destruct i as [|i], j as [|j]; [done| | |].
  - by apply suffix_zero_nonzero in Heq; [|lia].
  - symmetry in Heq. by apply suffix_zero_nonzero in Heq; [|lia].
  - assert (N.of_nat (S i) = N.of_nat (S j)); [|lia].
    apply (suffix_index_inj ext [] []); [lia|lia|done].
Qed.

Lemma runs_invariant fuel w W ext (m : nat) :
  (∀ i, (i ≤ m)%nat →
        Buffer_byteLength (path_basename W)
        ≤ maxSafePrefixBytes w ext false (N.of_nat i)) →
  (∀ i, (i ≤ m)%nat → files w !! variant W ext i = None) →
  (∀ i, (i ≤ m)%nat → create_error (variant W ext i) = None) →
  ∀ n, (n ≤ m)%nat → (n < fuel)%nat →
    let wn := runs create_error fuel n w W ext in
    maxSafeBytes wn = maxSafeBytes w
    ∧ (∀ i, (i < n)%nat → files wn !! variant W ext i = Some [])
    ∧ (∀ q, (∀ i, (i < n)%nat → q ≠ variant W ext i) →
            files wn !! q = files w !! q)
    ∧ ensureSafePath create_error fuel wn W ext false 0
      = Resolved (variant W ext n)
          {| maxSafeBytes := maxSafeBytes wn;
             files := <[variant W ext n := []]> (files wn) |}.
Proof.
  intros Hfit Hfree Hcreate.
  assert (Hcall : ∀ n wn, (n ≤ m)%nat → (n < fuel)%nat →
    maxSafeBytes wn = maxSafeBytes w →
    (∀ i, (i < n)%nat → files wn !! variant W ext i = Some []) →
    (∀ q, (∀ i, (i < n)%nat → q ≠ variant W ext i) →
          files wn !! q = files w !! q) →
    ensureSafePath create_error fuel wn W ext false 0
    = Resolved (variant W ext n)
        {| maxSafeBytes := maxSafeBytes wn;
           files := <[variant W ext n := []]> (files wn) |}).
  { intros n wn Hn Hfuel Hb Hmade Hrest.
    apply (ensureSafePath_skips_taken create_error wn W ext (N.of_nat n) n);
      [lia|done| | | |].
    - intros i Hi. unfold maxSafePrefixBytes. rewrite Hb.
      rewrite <- (N2Nat.id i). apply Hfit. lia.
    - intros i Hi. rewrite <- (N2Nat.id i).
      fold (variant W ext (N.to_nat i)). rewrite Hmade; [done|lia].
    - fold (variant W ext n). rewrite Hrest; [by apply Hfree|].
      intros i Hi Heq. apply variant_inj in Heq. lia.
    - by apply Hcreate. }
  induction n as [|n IH]; intros Hn Hfuel wn.
  - split; [done|]. split; [intros i Hi; lia|]. split; [done|].
    apply Hcall; try done. intros i Hi; lia.
  - destruct IH as (Hb & Hmade & Hrest & Hres); [lia|lia|].
    assert (Hwn : wn = {| maxSafeBytes := maxSafeBytes w;
                          files := <[variant W ext n := []]>
                                     (files (runs create_error fuel n w W ext)) |}).
    { unfold wn. simpl. rewrite Hres. unfold world_or. simpl.
      by rewrite Hb. }
    assert (Hb' : maxSafeBytes wn = maxSafeBytes w) by (by rewrite Hwn).
    assert (Hmade' : ∀ i, (i < S n)%nat →
                          files wn !! variant W ext i = Some []).
    { intros i Hi. rewrite Hwn. simpl.
      destruct (decide (i = n)) as [->|Hne]; [apply lookup_insert_eq|].
      rewrite lookup_insert_ne; [apply Hmade; lia|].
      intros Heq. apply variant_inj in Heq. lia. }
    assert (Hrest' : ∀ q, (∀ i, (i < S n)%nat → q ≠ variant W ext i) →
                          files wn !! q = files w !! q).
    { intros q Hq. rewrite Hwn. simpl.
      rewrite lookup_insert_ne; [|intros Heq; by apply (Hq n); [lia|]].
      apply Hrest. intros i Hi. apply Hq. lia. }
    split; [done|]. split; [done|]. split; [done|]. by apply Hcall.
Qed.

(** X4. Successive calls for the same path without [overwrite] number
    their files.  When the base name fits the budget with the suffixes of
    the indices 0 to [n], none of these candidates exists at the start and
    the file system accepts them, then after [n] calls the candidates 0 to
    [n - 1] are empty files, every other path is as it was, [maxSafeBytes]
    is unchanged, and the next call returns the candidate [n]. *)
Theorem successive_runs_number_the_files fuel (n : nat) w W ext :
  (n < fuel)%nat →
  (∀ i, (i ≤ n)%nat →
        Buffer_byteLength (path_basename W)
        ≤ maxSafePrefixBytes w ext false (N.of_nat i)) →
  (∀ i, (i ≤ n)%nat → files w !! variant W ext i = None) →
  (∀ i, (i ≤ n)%nat → create_error (variant W ext i) = None) →
  let wn := runs create_error fuel n w W ext in
  verdict (ensureSafePath create_error fuel wn W ext false 0)
  = Some (inr (variant W ext n))
  ∧ maxSafeBytes wn = maxSafeBytes w
  ∧ (∀ i, (i < n)%nat → files wn !! variant W ext i = Some [])
  ∧ (∀ q, (∀ i, (i < n)%nat → q ≠ variant W ext i) →
          files wn !! q = files w !! q).
Proof.
  intros Hfuel Hfit Hfree Hcreate wn.
  destruct (runs_invariant fuel w W ext n Hfit Hfree Hcreate n)
    as (Hb & Hmade & Hrest & Hres); [lia|done|].
  fold wn in Hb, Hmade, Hrest, Hres.
  split; [by rewrite Hres|]. by repeat split.
Qed.

(** ** A file system that refuses every name *)

Lemma ensureSafePath_refused (k : nat) :
  (∀ p, ∃ err, create_error p = Some err
               ∧ code err = Some "ENAMETOOLONG"%string) →
  ∀ fuel w W ext ov num,
    meets_no_file create_error fuel w W ext ov num →
    Z.to_nat (maxSafePrefixBytes w ext ov num - (MIN_PREFIX_BYTES - 1)) = k →
    (k < fuel)%nat →
    ∃ err w',
      ensureSafePath create_error fuel w W ext ov num = Failed err w'
      ∧ code err = Some "ENAMETOOLONG"%string
      ∧ recoveries create_error fuel w W ext ov num = k
      ∧ maxSafeBytes w' = maxSafeBytes w - Z.of_nat k
      ∧ files w' = files w.
Proof.
  intros Hfs. induction k as [|k IH]; intros fuel w W ext ov num Hex Hk Hfuel;
    (destruct fuel as [|fuel]; [lia|]);
    pose proof (meets_no_file_head _ _ _ _ _ _ _ Hex) as Hhead;
    destruct (Hfs (fullPath w W ext ov num)) as (err & Hcreate & Hcode);
    pose proof (activation_name_too_long create_error w W ext ov num err
                  Hhead Hcreate Hcode) as Hact.
  - replace (MIN_PREFIX_BYTES <=? _) with false in Hact
      by (symmetry; apply Z.leb_gt; unfold MIN_PREFIX_BYTES in *; lia).
    simpl. rewrite Hact.
    exists err, w. repeat split; try done. lia.
  - replace (MIN_PREFIX_BYTES <=? _) with true in Hact
      by (symmetry; apply Z.leb_le; unfold MIN_PREFIX_BYTES in *; lia).
    pose proof (meets_no_file_shorter _ _ _ _ _ _ _ _ Hex Hact) as Hex'.
    simpl. rewrite Hact.
    destruct (IH fuel (set_maxSafeBytes w (maxSafeBytes w - 1))
                (truncated_withoutExt (maxSafePrefixBytes w ext ov num) W)
                ext ov num) as (err' & w' & Hres & Hcode' & Hrec & Hb & Hf).
    + exact Hex'.
    + unfold maxSafePrefixBytes in *. simpl. lia.
    + lia.
    + exists err', w'. rewrite Hres, Hrec. simpl in Hb.
      repeat split; try done. lia.
Qed.

(** X5. On a file system that refuses every name as too long, a call with
    a budget that is a safe integer, none of whose candidates exists (or
    with [overwrite] set), ends by throwing an ENAMETOOLONG error.  When
    its prefix budget starts at the floor or above, it makes one recovery
    for each unit of the prefix budget from its start down to the floor,
    and [maxSafeBytes] is left so that the prefix budget is one below the
    floor; when it starts below the floor, it throws at once.  The files
    are untouched. *)
Theorem refused_names_exhaust_the_budget fuel w W ext ov num :
  (∀ p, ∃ err, create_error p = Some err
               ∧ code err = Some "ENAMETOOLONG"%string) →
  safe_budget w →
  meets_no_file create_error fuel w W ext ov num →
  (Z.to_nat (maxSafePrefixBytes w ext ov num - (MIN_PREFIX_BYTES - 1))
   < fuel)%nat →
  ∃ err w',
    ensureSafePath create_error fuel w W ext ov num = Failed err w'
    ∧ code err = Some "ENAMETOOLONG"%string
    ∧ files w' = files w
    ∧ (MIN_PREFIX_BYTES ≤ maxSafePrefixBytes w ext ov num →
       maxSafePrefixBytes w' ext ov num = MIN_PREFIX_BYTES - 1
       ∧ Z.of_nat (recoveries create_error fuel w W ext ov num)
         = maxSafePrefixBytes w ext ov num - (MIN_PREFIX_BYTES - 1))
    ∧ (maxSafePrefixBytes w ext ov num < MIN_PREFIX_BYTES →
       w' = w ∧ recoveries create_error fuel w W ext ov num = 0%nat).
Proof.
  intros Hfs _ Hex Hfuel.
  destruct (ensureSafePath_refused _ Hfs fuel w W ext ov num Hex eq_refl Hfuel)
    as (err & w' & Hres & Hcode & Hrec & Hb & Hf).
  exists err, w'. split; [done|]. split; [done|]. split; [done|].
  unfold maxSafePrefixBytes in *. split; intros Hfloor.
  - rewrite Hrec, Hb. unfold MIN_PREFIX_BYTES in *. lia.
  - assert (Hzero : recoveries create_error fuel w W ext ov num = 0%nat)
      by (rewrite Hrec; unfold MIN_PREFIX_BYTES in *; lia).
    split; [|done]. rewrite Hrec in Hzero. rewrite Hzero in Hb.
    destruct w, w'. simpl in *. f_equal; [lia|done].
Qed.

End ResolverRuns.

(** ** ASCII base names *)

Lemma utf8_decode_ascii (bs : list Z) :
  ascii_string bs → utf8_decode None bs = bs.
Proof.
  induction 1 as [|b bs Hb _ IH]; [done|].
  cbn [utf8_decode]. unfold utf8_lead.
  replace (b <=? 0x7F) with true by lia. by rewrite IH.
Qed.

Lemma Buffer_toString_ascii (bs : list Z) :
  ascii_string bs → Buffer_toString bs = bs.
Proof.
  intros Hbs. unfold Buffer_toString. rewrite utf8_decode_ascii by done.
  induction Hbs as [|b bs Hb _ IH]; [done|].
  rewrite bind_cons, IH. unfold utf16_of_cp.
  by replace (b <? 0x10000) with true by lia.
Qed.

Lemma ascii_string_take (n : nat) (s : jsstring) :
  ascii_string s → ascii_string (take n s).
Proof. apply Forall_take. Qed.

Lemma Buffer_byteLength_ascii (s : jsstring) :
  ascii_string s → Buffer_byteLength s = str_length s.
Proof.
  intros Hs. unfold Buffer_byteLength. by rewrite Buffer_from_ascii.
Qed.

(** The truncated base name of an ASCII name is its prefix, and decoding
    loses nothing. *)
Lemma truncated_ascii (base : jsstring) (limit : Z) :
  ascii_string base → 0 ≤ limit →
  Buffer_toString (Buffer_slice0 (Buffer_from base) limit)
  = take (Z.to_nat limit) base
  ∧ Buffer_from (Buffer_toString (Buffer_slice0 (Buffer_from base) limit))
    = Buffer_slice0 (Buffer_from base) limit.
Proof.
  intros Hbase Hlimit. unfold Buffer_slice0.
  replace (limit <? 0) with false by lia.
  rewrite (Buffer_from_ascii base) by done.
  rewrite Buffer_toString_ascii by (by apply ascii_string_take).
  split; [done|]. apply Buffer_from_ascii. by apply ascii_string_take.
Qed.

Lemma last_separator_split (W : jsstring) :
  no_separator W
  ∨ ∃ dir seg, W = dir ++ CHAR_FORWARD_SLASH :: seg ∧ no_separator seg.
Proof.
  induction W as [|c W IH]; [left; constructor|].
  destruct IH as [Hplain | (dir & seg & -> & Hseg)].
  - destruct (decide (c = CHAR_FORWARD_SLASH)) as [->|Hc].
    + right. by exists [], W.
    + left. by constructor.
  - right. by exists (c :: dir), seg.
Qed.

Lemma Buffer_byteLength_nonneg (s : jsstring) : 0 ≤ Buffer_byteLength s.
Proof. unfold Buffer_byteLength, byteLength. lia. Qed.

(** Appending a suffix without separator to a path adds at most the bytes
    of the suffix to its base name. *)
Lemma path_basename_app_bound (W s : jsstring) :
  no_separator s → s ≠ [] →
  match s with d :: _ => isLowSurrogate d = false | [] => True end →
  Buffer_byteLength (path_basename (W ++ s))
  ≤ Buffer_byteLength (path_basename W) + Buffer_byteLength s.
Proof.
  intros Hs Hne Hhead.
  destruct (last_separator_split W) as [Hplain | (dir & seg & -> & Hseg)].
  - rewrite !path_basename_plain; [|done|by apply Forall_app].
    rewrite Buffer_byteLength_app by done. lia.
  - rewrite <- app_assoc. simpl.
    rewrite (path_basename_last_segment dir (seg ++ s));
      [|by apply Forall_app|by destruct seg, s].
    rewrite Buffer_byteLength_app by done.
    destruct seg as [|c seg].
    + pose proof (Buffer_byteLength_nonneg (path_basename (dir ++ [CHAR_FORWARD_SLASH]))).
      change (Buffer_byteLength []) with 0. lia.
    + rewrite (path_basename_last_segment dir (c :: seg)) by done. lia.
Qed.

(** The base names of a truncated path and of its candidate. *)
Lemma truncated_basename_eq (W s : jsstring) (limit : Z) :
  let filenameBuf := Buffer_from (path_basename W) in
  let t := Buffer_toString (Buffer_slice0 filenameBuf limit) in
  3 ≤ limit < byteLength filenameBuf →
  Buffer_from t = Buffer_slice0 filenameBuf limit →
  no_separator s →
  path_basename (truncated_withoutExt limit W) = t
  ∧ Buffer_byteLength t = limit
  ∧ (s ≠ [] → path_basename (truncated_withoutExt limit W ++ s) = t ++ s).
Proof.
  intros filenameBuf t Hlimit Hround Hs.
  destruct (truncated_plain_segment (path_basename W) limit)
    as [Hplain Hlen]; [apply path_basename_no_separator|done|done|].
  fold filenameBuf in Hplain, Hlen. fold t in Hplain, Hlen.
  assert (Htrunc : truncated_withoutExt limit W
                   = path_join [path_dirname W; t]).
  { unfold truncated_withoutExt. fold filenameBuf.
    by replace (limit <? byteLength filenameBuf) with true by lia. }
  rewrite Htrunc. pose proof Hplain as (Hsep & Hne & _).
  destruct (path_join_last_segment (path_dirname W) t)
    as [-> | [parent ->]]; [apply path_dirname_nonempty|done| |].
  - split; [by apply path_basename_plain|]. split; [done|].
    intros _. apply path_basename_plain. by apply Forall_app.
  - split; [by apply path_basename_last_segment|]. split; [done|].
    intros _. rewrite <- app_assoc. simpl.
    apply path_basename_last_segment; [by apply Forall_app|by destruct t].
Qed.

Lemma truncated_ascii_basename (limit : Z) (W : jsstring) :
  ascii_string (path_basename W) →
  3 ≤ limit →
  path_basename (truncated_withoutExt limit W)
  = take (Z.to_nat limit) (path_basename W)
  ∧ Buffer_byteLength (path_basename (truncated_withoutExt limit W))
    = Z.min limit (Buffer_byteLength (path_basename W))
  ∧ truncated_withoutExt limit (truncated_withoutExt limit W)
    = truncated_withoutExt limit W.
Proof.
  intros Hascii Hlimit.
  destruct (decide (Buffer_byteLength (path_basename W) ≤ limit))
    as [Hfit|Hlong].
  - rewrite !truncated_withoutExt_fits by done.
    pose proof (Buffer_byteLength_ascii _ Hascii) as Hlen.
    unfold str_length in Hlen.
    split; [|split; [lia|done]].
    rewrite take_ge; [done|lia].
  - destruct (truncated_ascii (path_basename W) limit) as [Ht Hround];
      [done|lia|].
    destruct (truncated_basename_eq W [] limit) as (Hbase & Hlen & _);
      [unfold Buffer_byteLength in Hlong; lia|done|constructor|].
    rewrite Ht in Hbase. rewrite Ht in Hlen.
    split; [done|]. split; [rewrite Hbase, Hlen; lia|].
    apply truncated_withoutExt_fits. rewrite Hbase, Hlen. lia.
Qed.

(** X6. Truncation of an ASCII base name under a limit of at least three
    bytes keeps exactly its first [limit] characters (all of them when it
    fits), so that the base name has min(limit, length) bytes afterwards,
    and truncating again under the same limit changes nothing. *)
Theorem truncation_keeps_ascii_prefix (limit : Z) (W : jsstring) :
  ascii_string (path_basename W) →
  3 ≤ limit →
  path_basename (truncated_withoutExt limit W)
  = take (Z.to_nat limit) (path_basename W)
  ∧ Buffer_byteLength (path_basename (truncated_withoutExt limit W))
    = Z.min limit (Buffer_byteLength (path_basename W))
  ∧ truncated_withoutExt limit (truncated_withoutExt limit W)
    = truncated_withoutExt limit W.
Proof. apply truncated_ascii_basename. Qed.

Section ResolverAscii.

Variable create_error : jsstring → option JSError.

Lemma candidate_basename_bound w W ext ov num :
  ascii_string (path_basename W) → ascii_string ext → no_separator ext →
  3 ≤ maxSafePrefixBytes w ext ov num →
  Buffer_byteLength (path_basename (fullPath w W ext ov num))
  ≤ maxSafeBytes w.
Proof.
  intros Hbase Hext Hsep Hlimit. unfold fullPath.
  set (limit := maxSafePrefixBytes w ext ov num) in *.
  pose proof (suffix_no_separator ext ov num Hsep) as Hs.
  pose proof (suffix_head ext ov num) as Hhead.
  pose proof (suffix_length_positive ext ov num) as Hpos.
  pose proof (Buffer_byteLength_ascii _ (suffix_ascii ext ov num Hext))
    as Hbytes.
  destruct (truncated_ascii_basename limit W Hbase Hlimit) as (_ & Hmin & _).
  etrans; [apply path_basename_app_bound; try done|].
  - intros Heq. rewrite Heq in Hpos. by vm_compute in Hpos.
  - rewrite Hmin, Hbytes. unfold limit, maxSafePrefixBytes. lia.
Qed.

Lemma ensureSafePath_ascii_bound fuel :
  ∀ w W ext ov num p w',
    ensureSafePath create_error fuel w W ext ov num = Resolved p w' →
    ascii_string (path_basename W) → ascii_string ext → no_separator ext →
    Forall (λ c : N * Z * jsstring,
              3 ≤ c.1.2 - str_length (suffix ext ov c.1.1))
      (candidates create_error fuel w W ext ov num) →
    Buffer_byteLength (path_basename p) ≤ maxSafeBytes w'.
Proof.
  induction fuel as [|fuel IH]; intros w W ext ov num p w'; simpl; [done|].
  intros Hres Hbase Hext Hsep Hall.
  apply Forall_cons in Hall as [Hlimit Hall]. simpl in Hlimit.
  assert (Hnext : ascii_string
            (path_basename
               (truncated_withoutExt (maxSafePrefixBytes w ext ov num) W))).
  { destruct (truncated_ascii_basename (maxSafePrefixBytes w ext ov num) W)
      as (-> & _); [done|done|]. by apply ascii_string_take. }
  destruct (activation create_error w W ext ov num) as [W1|W1|p1 w1|err]
    eqn:Hact; [| | |done].
  - apply activation_RetryNext in Hact as (-> & _).
    by apply (IH _ _ _ _ _ _ _ Hres).
  - apply activation_RetryShorter in Hact as (-> & _).
    by apply (IH _ _ _ _ _ _ _ Hres).
  - injection Hres as <- <-.
    apply activation_Return in Hact as (-> & _ & _ & ->). simpl.
    by apply candidate_basename_bound.
Qed.

(** X7. For an ASCII base name and an ASCII extension without separator,
    the base name of a returned path has at most as many bytes as
    [maxSafeBytes] allows when the call returns, provided every candidate
    the call probed had a prefix budget of at least three bytes. *)
Theorem ascii_name_within_budget fuel w W ext ov num p w' :
  ensureSafePath create_error fuel w W ext ov num = Resolved p w' →
  ascii_string (path_basename W) →
  ascii_string ext →
  no_separator ext →
  Forall (λ c : N * Z * jsstring,
            3 ≤ c.1.2 - str_length (suffix ext ov c.1.1))
    (candidates create_error fuel w W ext ov num) →
  Buffer_byteLength (path_basename p) ≤ maxSafeBytes w'
  ∧ maxSafeBytes w' ≤ maxSafeBytes w.
Proof.
  intros Hres Hbase Hext Hsep Hall.
  split; [by eapply ensureSafePath_ascii_bound|].
  assert (Hw : world_after (ensureSafePath create_error fuel w W ext ov num)
               = Some w') by (by rewrite Hres).
  apply ensureSafePath_budget in Hw. lia.
Qed.

End ResolverAscii.

(** ** A file system with a limit on the bytes of a name *)

Lemma activation_created create_error w W ext ov num :
  pathExists w (fullPath w W ext ov num) && negb ov = false →
  create_error (fullPath w W ext ov num) = None →
  activation create_error w W ext ov num
  = Return (fullPath w W ext ov num)
      {| maxSafeBytes := maxSafeBytes w;
         files := <[fullPath w W ext ov num := []]> (files w) |}.
Proof.
  intros Hex Hcreate. unfold activation, outputFile.
  fold (fullPath w W ext ov num). by rewrite Hex, Hcreate.
Qed.

Lemma name_max_discovery (L : Z) (k : nat) :
  ∀ fuel w W ext ov num,
    ascii_string (path_basename W) → ascii_string ext → no_separator ext →
    meets_no_file (name_max L) fuel w W ext ov num →
    MIN_PREFIX_BYTES - 1 + str_length (suffix ext ov num) ≤ L →
    L ≤ maxSafeBytes w →
    Z.to_nat (maxSafeBytes w - L) = k →
    maxSafePrefixBytes w ext ov num < Buffer_byteLength (path_basename W) →
    (k < fuel)%nat →
    ∃ p w',
      ensureSafePath (name_max L) fuel w W ext ov num = Resolved p w'
      ∧ path_basename p
        = take (Z.to_nat (L - str_length (suffix ext ov num)))
            (path_basename W) ++ suffix ext ov num
      ∧ maxSafeBytes w' = L
      ∧ recoveries (name_max L) fuel w W ext ov num = k.
Proof.
  induction k as [|k IH];
    intros fuel w W ext ov num Hbase Hext Hsep Hex Hfloor HL Hk Hlong Hfuel;
    (destruct fuel as [|fuel]; [lia|]);
    pose proof (meets_no_file_head _ _ _ _ _ _ _ Hex) as Hhead;
    cbn [ensureSafePath recoveries];
    set (limit := maxSafePrefixBytes w ext ov num) in *;
    set (s := suffix ext ov num) in *;
    assert (Hlimit : limit = maxSafeBytes w - str_length s) by done;
    assert (Hmin : MIN_PREFIX_BYTES = 64) by done;
    destruct (truncated_ascii (path_basename W) limit) as [Ht Hround];
    try done; try lia;
    pose proof (suffix_length_positive ext ov num) as Hpos; fold s in Hpos;
    assert (Hsne : s ≠ [])
      by (intros Heq; rewrite Heq in Hpos; by vm_compute in Hpos);
    destruct (truncated_basename_eq W s limit) as (Hb1 & Hlen & Hb2);
    try done;
    try (unfold Buffer_byteLength in Hlong; lia);
    try (by apply suffix_no_separator);
    specialize (Hb2 Hsne); rewrite Ht in Hb1, Hb2, Hlen;
    assert (Hbytes : Buffer_byteLength (path_basename (fullPath w W ext ov num))
                     = maxSafeBytes w)
      by (unfold fullPath; fold limit s; rewrite Hb2,
            Buffer_byteLength_app, Hlen, Buffer_byteLength_ascii
            by (apply suffix_head || by apply suffix_ascii); lia).
  - rewrite activation_created;
      [|exact Hhead|unfold name_max; rewrite Hbytes;
                    by replace (L <? maxSafeBytes w) with false by lia].
    eexists _, _. split; [done|]. simpl. unfold fullPath. fold limit s.
    rewrite Hb2. replace (L - str_length s) with limit by lia.
    split; [done|]. split; [lia|done].
  - assert (Hact : activation (name_max L) w W ext ov num
                   = RetryShorter (truncated_withoutExt limit W)).
    { rewrite (activation_name_too_long (name_max L) w W ext ov num
                 ENAMETOOLONG); [|exact Hhead| |done].
      - fold limit.
        by replace (MIN_PREFIX_BYTES <=? limit) with true by lia.
      - unfold name_max. rewrite Hbytes.
        by replace (L <? maxSafeBytes w) with true by lia. }
    pose proof (meets_no_file_shorter _ _ _ _ _ _ _ _ Hex Hact) as Hex'.
    rewrite Hact.
    destruct (IH fuel (set_maxSafeBytes w (maxSafeBytes w - 1))
                (truncated_withoutExt limit W) ext ov num)
      as (p & w' & Hres & Hp & Hw' & Hrec); try done.
    + rewrite Hb1. by apply ascii_string_take.
    + simpl. lia.
    + simpl. lia.
    + rewrite Hb1, Hlen. unfold maxSafePrefixBytes. simpl. fold s. lia.
    + lia.
    + exists p, w'. rewrite Hres, Hrec. split; [done|]. split; [|done].
      rewrite Hp, Hb1. fold s. rewrite take_take. do 2 f_equal. lia.
Qed.

(** X8. On a file system that takes at most [L] bytes per name, with [L]
    between the floor (plus the suffix) and [maxSafeBytes], itself a safe
    integer, a call for an ASCII base name longer than the prefix budget,
    none of whose candidates exists (or with [overwrite] set), discovers the
    limit: it makes one recovery for each unit of
    [maxSafeBytes] above [L], leaves [maxSafeBytes] at [L], and returns the
    first [L] minus suffix length characters of the base name followed by
    the suffix, a base name of exactly [L] bytes. *)
Theorem name_limit_is_discovered (L : Z) fuel w W ext ov num :
  ascii_string (path_basename W) →
  ascii_string ext →
  no_separator ext →
  safe_budget w →
  meets_no_file (name_max L) fuel w W ext ov num →
  MIN_PREFIX_BYTES - 1 + str_length (suffix ext ov num) ≤ L →
  L ≤ maxSafeBytes w →
  maxSafePrefixBytes w ext ov num < Buffer_byteLength (path_basename W) →
  (Z.to_nat (maxSafeBytes w - L) < fuel)%nat →
  ∃ p w',
    ensureSafePath (name_max L) fuel w W ext ov num = Resolved p w'
    ∧ path_basename p
      = take (Z.to_nat (L - str_length (suffix ext ov num)))
          (path_basename W) ++ suffix ext ov num
    ∧ Buffer_byteLength (path_basename p) = L
    ∧ maxSafeBytes w' = L
    ∧ Z.of_nat (recoveries (name_max L) fuel w W ext ov num)
      = maxSafeBytes w - L.
Proof.
  intros Hbase Hext Hsep _ Hex Hfloor HL Hlong Hfuel.
  destruct (name_max_discovery L _ fuel w W ext ov num Hbase Hext Hsep Hex
              Hfloor HL eq_refl Hlong Hfuel) as (p & w' & Hres & Hp & Hw & Hrec).
  exists p, w'. split; [done|]. split; [done|]. split; [|split; [done|lia]].
  rewrite Hp, Buffer_byteLength_app by apply suffix_head.
  rewrite !Buffer_byteLength_ascii
    by (by apply suffix_ascii || by apply ascii_string_take).
  pose proof (Buffer_byteLength_ascii _ Hbase) as Hlen.
  unfold str_length in *. rewrite length_take_le;
    unfold maxSafePrefixBytes, str_length, MIN_PREFIX_BYTES in *; lia.
Qed.

(* ===================================================================== *)
(** * Further properties of [sanitizeToString] *)
(* ===================================================================== *)

Lemma truncate_loop_prefix (n : nat) :
  ∀ (s : jsstring) (cur limit : Z),
    (length s ≤ n)%nat → ∃ rest, s = truncate_loop s cur limit ++ rest.
Proof.
  induction n as [|n IH]; intros s cur limit Hlen.
  { destruct s; [by exists [] | simpl in Hlen; lia]. }
  destruct s as [|c s]; [by exists []|].
  rewrite truncate_loop_unfold. cbv zeta. simpl in Hlen.
  assert (Hsingle : ∃ rest,
    c :: s = (if cur + Buffer_byteLength [c] =? limit then [c]
              else if limit <? cur + Buffer_byteLength [c] then []
              else c :: truncate_loop s (cur + Buffer_byteLength [c]) limit)
             ++ rest).
  { destruct (_ =? _); [by exists s|].
    destruct (_ <? _); [by exists (c :: s)|].
    destruct (IH s (cur + Buffer_byteLength [c]) limit) as [rest Hrest];
      [lia|].
    exists rest. change (c :: s = c :: (truncate_loop s
      (cur + Buffer_byteLength [c]) limit ++ rest)). by f_equal. }
  destruct s as [|d s]; [exact Hsingle|].
  destruct (isHighSurrogate c && isLowSurrogate d); [|exact Hsingle].
  clear Hsingle.
  destruct (_ =? _); [by exists s|].
  destruct (_ <? _); [by exists (c :: d :: s)|].
  destruct (IH s (cur + Buffer_byteLength [c; d]) limit) as [rest Hrest];
    [simpl in Hlen; lia|].
  exists rest. change (c :: d :: s = c :: d :: (truncate_loop s
    (cur + Buffer_byteLength [c; d]) limit ++ rest)). by do 2 f_equal.
Qed.

Lemma drop_trailing_suffix (rs : jsstring) :
  ∃ k, rs = k ++ drop_trailing rs.
Proof.
  induction rs as [|c rs [k Hk]]; [by exists []|]. simpl.
  destruct (_ || _); [|by exists []].
  exists (c :: k). by rewrite <- app_comm_cons, <- Hk.
Qed.

Lemma sanitize_string_sublist (s : jsstring) :
  sanitize_string s `sublist_of` s.
Proof.
  unfold sanitize_string, truncate.
  set (s2 := remove_matching controlRe (remove_matching illegalRe s)).
  set (s3 := if reservedRe s2 then [] else s2).
  set (s4 := if windowsReservedRe s3 then [] else s3).
  set (s5 := reverse (drop_trailing (reverse s4))).
  assert (H2 : s2 `sublist_of` s).
  { unfold s2, remove_matching. etrans; apply sublist_filter. }
  assert (H3 : s3 `sublist_of` s2).
  { unfold s3. destruct (reservedRe s2); [apply sublist_nil_l|done]. }
  assert (H4 : s4 `sublist_of` s3).
  { unfold s4. destruct (windowsReservedRe s3); [apply sublist_nil_l|done]. }
  assert (H5 : s5 `sublist_of` s4).
  { unfold s5. destruct (drop_trailing_suffix (reverse s4)) as [k Hk].
    apply (f_equal reverse) in Hk.
    rewrite reverse_involutive, reverse_app in Hk. rewrite Hk at 2.
    by apply sublist_inserts_r. }
  destruct (truncate_loop_prefix _ s5 0 255 (le_n _)) as [rest Hrest].
  etrans; [|etrans; [exact H5|etrans; [exact H4|etrans; [exact H3|exact H2]]]].
  rewrite Hrest at 2. by apply sublist_inserts_r.
Qed.

Lemma utf8_of_cp_length (c : Z) : (1 ≤ length (utf8_of_cp c) ≤ 4)%nat.
Proof. unfold utf8_of_cp. repeat case_match; simpl; lia. Qed.

Lemma Buffer_byteLength_single (c : Z) : 1 ≤ Buffer_byteLength [c] ≤ 4.
Proof.
  unfold Buffer_byteLength, byteLength. cbn [Buffer_from].
  repeat case_match; rewrite ?length_app; simpl;
    pose proof (utf8_of_cp_length c);
    pose proof (utf8_of_cp_length REPLACEMENT); lia.
Qed.

Lemma Buffer_byteLength_pair (c d : Z) :
  isHighSurrogate c && isLowSurrogate d = true →
  1 ≤ Buffer_byteLength [c; d] ≤ 4.
Proof.
  intros Hpair. apply andb_true_iff in Hpair as [Hc Hd].
  unfold Buffer_byteLength, byteLength. rewrite Buffer_from_unfold, Hc, Hd.
  rewrite length_app. simpl.
  pose proof (utf8_of_cp_length
                (0x10000 + (c - 0xD800) * 1024 + (d - 0xDC00))). lia.
Qed.

(** The bytes of a character and of the rest of a string add up, unless
    the character and the next one form a surrogate pair. *)
Lemma Buffer_byteLength_cons (c : Z) (s : jsstring) :
  match s with
  | d :: _ => isHighSurrogate c && isLowSurrogate d = false
  | [] => True
  end →
  Buffer_byteLength (c :: s) = Buffer_byteLength [c] + Buffer_byteLength s.
Proof.
  intros Hs. unfold Buffer_byteLength, byteLength.
  rewrite !Buffer_from_unfold.
  destruct s as [|d s]; [repeat case_match; simpl; lia|].
  destruct (isHighSurrogate c); simpl in Hs.
  - rewrite Hs, length_app. change (Buffer_from []) with (@nil Z). lia.
  - destruct (isLowSurrogate c); rewrite !length_app;
      change (Buffer_from []) with (@nil Z); simpl; lia.
Qed.

Lemma Buffer_byteLength_pair_cons (c d : Z) (s : jsstring) :
  isHighSurrogate c && isLowSurrogate d = true →
  Buffer_byteLength (c :: d :: s)
  = Buffer_byteLength [c; d] + Buffer_byteLength s.
Proof.
  intros Hpair. apply andb_true_iff in Hpair as [Hc Hd].
  unfold Buffer_byteLength, byteLength.
  rewrite (Buffer_from_unfold c (d :: s)), (Buffer_from_unfold c [d]).
  rewrite Hc, Hd, !length_app. change (Buffer_from []) with (@nil Z).
  simpl. lia.
Qed.

Lemma truncate_loop_head (s : jsstring) (cur limit : Z) :
  match truncate_loop s cur limit, s with
  | x :: _, y :: _ => x = y
  | _ :: _, [] => False
  | [], _ => True
  end.
Proof.
  destruct (truncate_loop_prefix _ s cur limit (le_n _)) as [rest Hrest].
  destruct (truncate_loop s cur limit) as [|x r]; [done|].
  destruct s as [|y s]; [done|]. by injection Hrest.
Qed.

(** What [truncate] keeps has at most [limit] bytes, and when it drops
    something, more than [limit - 4] bytes. *)
Lemma truncate_loop_bytes (n : nat) :
  ∀ (s : jsstring) (cur limit : Z),
    (length s ≤ n)%nat → cur ≤ limit →
    cur + Buffer_byteLength (truncate_loop s cur limit) ≤ limit
    ∧ (truncate_loop s cur limit = s
       ∨ limit - 4 < cur + Buffer_byteLength (truncate_loop s cur limit)).
Proof.
  induction n as [|n IH]; intros s cur limit Hlen Hcur.
  { destruct s; [|simpl in Hlen; lia]. simpl.
    change (Buffer_byteLength []) with 0. split; [lia|by left]. }
  destruct s as [|c s].
  { simpl. change (Buffer_byteLength []) with 0. split; [lia|by left]. }
  rewrite truncate_loop_unfold. cbv zeta. simpl in Hlen.
  pose proof (Buffer_byteLength_single c) as Hc.
  assert (Hsingle : ∀ rest,
    (length rest ≤ n)%nat →
    match rest with
    | d :: _ => isHighSurrogate c && isLowSurrogate d = false
    | [] => True
    end →
    let r := if cur + Buffer_byteLength [c] =? limit then [c]
             else if limit <? cur + Buffer_byteLength [c] then []
             else c :: truncate_loop rest (cur + Buffer_byteLength [c]) limit in
    cur + Buffer_byteLength r ≤ limit
    ∧ (r = c :: rest ∨ limit - 4 < cur + Buffer_byteLength r)).
  { intros rest Hrest Hpair r. unfold r.
    destruct (_ =? _) eqn:Heq; [apply Z.eqb_eq in Heq; lia|].
    destruct (_ <? _) eqn:Hlt.
    { apply Z.ltb_lt in Hlt. change (Buffer_byteLength []) with 0. lia. }
    apply Z.eqb_neq in Heq. apply Z.ltb_ge in Hlt.
    destruct (IH rest (cur + Buffer_byteLength [c]) limit) as [Hle Hor];
      [done|lia|].
    rewrite Buffer_byteLength_cons.
    - split; [lia|]. destruct Hor as [-> | ?]; [by left | right; lia].
    - pose proof (truncate_loop_head rest (cur + Buffer_byteLength [c]) limit)
        as Hhead.
      destruct (truncate_loop rest _ limit) as [|x r']; [done|].
      destruct rest as [|y rest]; [done|]. by subst x. }
  destruct s as [|d s]; [apply (Hsingle []); [simpl; lia|done]|].
  destruct (isHighSurrogate c && isLowSurrogate d) eqn:Hpair;
    [|apply (Hsingle (d :: s)); [lia|done]].
  clear Hsingle.
  pose proof (Buffer_byteLength_pair c d Hpair) as Hcd.
  destruct (_ =? _) eqn:Heq; [apply Z.eqb_eq in Heq; lia|].
  destruct (_ <? _) eqn:Hlt.
  { apply Z.ltb_lt in Hlt. change (Buffer_byteLength []) with 0. lia. }
  apply Z.eqb_neq in Heq. apply Z.ltb_ge in Hlt.
  destruct (IH s (cur + Buffer_byteLength [c; d]) limit) as [Hle Hor];
    [simpl in Hlen; lia|lia|].
  rewrite Buffer_byteLength_pair_cons by done.
  split; [lia|]. destruct Hor as [-> | ?]; [by left | right; lia].
Qed.

Lemma sanitize_string_bytes (s : jsstring) :
  Buffer_byteLength (sanitize_string s) ≤ 255.
Proof.
  unfold sanitize_string, truncate.
  match goal with
  | |- context [truncate_loop ?x 0 255] =>
      destruct (truncate_loop_bytes _ x 0 255 (le_n _)) as [Hle _]; [lia|]
  end.
  lia.
Qed.

(** X9. Sanitizing a title only deletes characters: the result is a
    subsequence of the title as [_.toString] prints it, and it has at most
    255 bytes in UTF-8. *)
Theorem sanitizeToString_only_deletes (title : JSValue) :
  ∃ s : jsstring,
    sanitizeToString title = inr s
    ∧ s `sublist_of` lodash_toString title
    ∧ Buffer_byteLength s ≤ 255.
Proof.
  exists (sanitize_string (lodash_toString title)).
  split; [done|]. split.
  - apply sanitize_string_sublist.
  - apply sanitize_string_bytes.
Qed.

(** What [windowsTrailingRe] leaves does not end in a dot or a space. *)
Lemma drop_trailing_head (rs : jsstring) :
  match drop_trailing rs with
  | c :: _ => (c =? CHAR_DOT) || (c =? CHAR_SPACE) = false
  | [] => True
  end.
Proof.
  induction rs as [|c rs IH]; [done|]. simpl.
  by destruct ((c =? CHAR_DOT) || (c =? CHAR_SPACE)) eqn:Hc.
Qed.

Lemma sanitize_string_not_dots (s : jsstring) :
  sanitize_string s ≠ js "." ∧ sanitize_string s ≠ js "..".
Proof.
  unfold sanitize_string, truncate. cbv zeta.
  match goal with
  | |- context [truncate_loop (reverse (drop_trailing ?x)) 0 255] =>
      set (rs := x)
  end.
  pose proof (drop_trailing_head rs) as Hhead.
  destruct (truncate_loop_bytes _ (reverse (drop_trailing rs)) 0 255 (le_n _))
    as [_ [Heq|Hlong]]; [lia| |].
  - rewrite Heq.
    split; intros Hdots; apply (f_equal reverse) in Hdots;
      rewrite reverse_involutive in Hdots; rewrite Hdots in Hhead;
      by vm_compute in Hhead.
  - split; intros Hdots; rewrite Hdots in Hlong; by vm_compute in Hlong.
Qed.

Lemma unsafe_char_separator (c : Z) :
  unsafe_char c = false → pathSeparatorRe c = false.
Proof.
  unfold unsafe_char, illegalRe, pathSeparatorRe.
  intros Hc. apply orb_false_iff in Hc as [Hc _].
  apply bool_decide_eq_false in Hc.
  apply orb_false_iff.
  split; apply Z.eqb_neq; intros ->; apply Hc; set_solver.
Qed.

Lemma space_not_in_dots (seg : jsstring) :
  (∃ c, c ∈ seg ∧ c ≠ CHAR_DOT) → seg ≠ js "." ∧ seg ≠ js "..".
Proof.
  intros (c & Hin & Hc).
  split; intros ->; apply Hc;
    repeat (apply elem_of_cons in Hin as [-> | Hin]; [done|]);
    by inversion Hin.
Qed.

Lemma sanitized_names_not_dots (data : Data) :
  Forall (λ seg, seg ≠ js "." ∧ seg ≠ js "..") (sanitized_names data).
Proof.
  unfold sanitized_names. case_bool_decide.
  - apply Forall_fmap, Forall_true. intros s. apply sanitize_string_not_dots.
  - apply Forall_singleton.
    destruct (titles data) as [|t [|t' ts]].
    + by split.
    + apply sanitize_string_not_dots.
    + apply space_not_in_dots. exists CHAR_SPACE. split; [|done].
      rewrite !fmap_cons.
      change (CHAR_SPACE ∈ sanitize_string (lodash_toString t)
                ++ RUNNABLE_SEPARATOR
                ++ join_with RUNNABLE_SEPARATOR
                     (sanitize_string (lodash_toString t')
                        :: ((λ t, sanitize_string (lodash_toString t))
                              <$> ts))).
      rewrite !elem_of_app. right. left. by left.
Qed.

Lemma markers_no_separator (data : Data) :
  Forall (λ c, pathSeparatorRe c = false)
    (failed_marker data ++ attempt_marker data).
Proof.
  apply Forall_app. split.
  - unfold failed_marker. destruct (testFailure data); [|done].
    apply Forall_forall. intros c Hc.
    repeat (apply elem_of_cons in Hc as [-> | Hc]; [done|]).
    by inversion Hc.
  - unfold attempt_marker. destruct (testAttemptIndex data) as [a|]; [|done].
    destruct (0 <? a) eqn:Ha; [|done]. apply Z.ltb_lt in Ha.
    apply Forall_app. split; [|apply Forall_app; split].
    + apply Forall_forall. intros c Hc.
      repeat (apply elem_of_cons in Hc as [-> | Hc]; [done|]).
      by inversion Hc.
    + unfold show_Z. destruct (a + 1 <? 0) eqn:Hneg;
        [apply Z.ltb_lt in Hneg; lia|].
      eapply Forall_impl; [apply show_N_digits|].
      intros c Hc. cbv beta in Hc. unfold pathSeparatorRe.
      apply orb_false_iff.
      split; apply Z.eqb_neq; unfold CHAR_BACKWARD_SLASH, CHAR_FORWARD_SLASH;
        lia.
    + apply Forall_forall. intros c Hc.
      repeat (apply elem_of_cons in Hc as [-> | Hc]; [done|]).
      by inversion Hc.
Qed.

Lemma markers_empty_or_parenthesis (data : Data) :
  failed_marker data ++ attempt_marker data = []
  ∨ 40 ∈ failed_marker data ++ attempt_marker data.
Proof.
  unfold failed_marker, attempt_marker.
  destruct (testFailure data).
  { right. apply elem_of_app. left. by right; left. }
  destruct (testAttemptIndex data) as [a|]; [|by left].
  destruct (0 <? a); [|by left].
  right. by right; left.
Qed.

(** X10. Every segment [getPath] appends after the segments of [specName]
    (the sanitized segments of [name], or the joined titles, the last one
    with its markers) contains no path separator and is neither [.] nor
    [..]; there is at least one such segment.  (The empty segment is not
    excluded.) *)
Theorem name_segments_are_not_dot_segments (data : Data) :
  ∃ names : list jsstring,
    names_sanitized data = inr names
    ∧ names ≠ []
    ∧ Forall (λ seg, Forall (λ c, pathSeparatorRe c = false) seg
                     ∧ seg ≠ js "." ∧ seg ≠ js "..")
        (mark_names data names).
Proof.
  exists (sanitized_names data).
  split; [apply names_sanitized_eq|].
  pose proof (sanitized_names_safe data) as Hsafe.
  pose proof (sanitized_names_not_dots data) as Hdots.
  destruct (sanitized_names_snoc data) as (init & leaf & Hnames).
  rewrite Hnames in *.
  split; [intros Heq; by apply app_nil_r_inv in Heq|].
  rewrite mark_names_snoc.
  apply Forall_app in Hsafe as [Hsafe_init Hsafe_leaf].
  apply Forall_app in Hdots as [Hdots_init Hdots_leaf].
  apply Forall_inv in Hsafe_leaf, Hdots_leaf.
  assert (Hsep : ∀ seg, safe_string seg →
                   Forall (λ c, pathSeparatorRe c = false) seg).
  { intros seg Hseg. eapply Forall_impl; [exact Hseg|].
    intros c. apply unsafe_char_separator. }
  apply Forall_app. split.
  - apply Forall_forall. intros seg Hseg. split.
    + apply Hsep. by eapply Forall_forall in Hsafe_init.
    + by eapply Forall_forall in Hdots_init.
  - apply Forall_singleton. split.
    + apply Forall_app. split; [by apply Hsep|apply markers_no_separator].
    + destruct (markers_empty_or_parenthesis data) as [-> | Hparen].
      * by rewrite app_nil_r.
      * apply space_not_in_dots. exists 40. split; [|done].
        apply elem_of_app. by right.
Qed.

(* ===================================================================== *)
(** * The further properties at work on concrete runs *)
(* ===================================================================== *)

Lemma fresh_world_empty (p : jsstring) :
  pathExists fresh_world p && negb false = false.
Proof.
  unfold pathExists. rewrite andb_true_r. apply bool_decide_eq_false.
  change (files fresh_world) with (∅ : gmap (list Z) (list Z)).
  rewrite lookup_empty. by intros [? ?].
Qed.

Lemma other_errors_are_not_retried_witness :
  recoveries deny_all 5 fresh_world shot_8280 (js "png") false 0 = 0%nat
  ∧ ensureSafePath deny_all 6 fresh_world shot_8280 (js "png") false 0
    = Failed EACCES fresh_world.
Proof.
  destruct (other_errors_are_not_retried deny_all 5 fresh_world shot_8280
              (js "png") false 0) as (Hrec & _ & Hfail).
  { intros p err Herr. injection Herr as <-. discriminate. }
  split; [exact Hrec|].
  apply Hfail; [apply fresh_world_empty | reflexivity].
Defined.

Lemma resolved_path_is_reserved_witness :
  let p := shot_8280 ++ js " (2).png" in
  let o := ensureSafePath accept_all 5 after_two_runs shot_8280 (js "png")
             false 0 in
  let w' := world_or after_two_runs o in
  o = Resolved p w'
  ∧ files w' !! p = Some []
  ∧ files after_two_runs !! p = None
  ∧ maxSafeBytes w' ≤ maxSafeBytes after_two_runs.
Proof.
  intros p o w'.
  assert (Hres : o = Resolved p w') by reflexivity.
  destruct (resolved_path_is_reserved accept_all 5 after_two_runs shot_8280
              (js "png") false 0 p w' Hres)
    as (_ & _ & Hnew & _ & Hfree & _ & Hbudget).
  split; [exact Hres|]. split; [exact Hnew|].
  split; [exact (Hfree eq_refl) | exact Hbudget].
Defined.

Lemma successive_runs_number_the_files_witness :
  let wn := runs accept_all 5 2 fresh_world shot_8280 (js "png") in
  verdict (ensureSafePath accept_all 5 wn shot_8280 (js "png") false 0)
  = Some (inr (variant shot_8280 (js "png") 2))
  ∧ maxSafeBytes wn = maxSafeBytes fresh_world
  ∧ (∀ i, (i < 2)%nat →
          files wn !! variant shot_8280 (js "png") i = Some [])
  ∧ (∀ q, (∀ i, (i < 2)%nat → q ≠ variant shot_8280 (js "png") i) →
          files wn !! q = files fresh_world !! q).
Proof.
  apply (successive_runs_number_the_files accept_all 5 2 fresh_world
           shot_8280 (js "png")).
  - lia.
  - intros i Hi.
    assert (i = 0 ∨ i = 1 ∨ i = 2)%nat as [-> | [-> | ->]] by lia;
      apply Z.leb_le; vm_compute; reflexivity.
  - intros i _. apply lookup_empty.
  - intros i _. reflexivity.
Defined.

Lemma refused_names_exhaust_the_budget_witness :
  ∃ (err : JSError) (w' : World),
    ensureSafePath reject_all 200 after_two_runs (js "/s/a") (js "png")
      false 0
    = Failed err w'
    ∧ code err = Some "ENAMETOOLONG"%string
    ∧ files w' = files after_two_runs
    ∧ maxSafePrefixBytes w' (js "png") false 0 = MIN_PREFIX_BYTES - 1
    ∧ Z.of_nat
        (recoveries reject_all 200 after_two_runs (js "/s/a") (js "png")
           false 0)
      = 187.
Proof.
  destruct (refused_names_exhaust_the_budget reject_all 200 after_two_runs
              (js "/s/a") (js "png") false 0)
    as (err & w' & Hfail & Hcode & Hfiles & Habove & _).
  - intros p. exists ENAMETOOLONG. split; reflexivity.
  - by vm_compute.
  - apply (bool_decide_unpack _). vm_compute. exact I.
  - vm_compute. lia.
  - exists err, w'. split; [exact Hfail|]. split; [exact Hcode|].
    split; [exact Hfiles|].
    destruct Habove as [Hfloor Hrec]; [vm_compute; discriminate|].
    split; [exact Hfloor | exact Hrec].
Defined.

Lemma longer_path_ascii : ascii_string (path_basename longer_path).
Proof. apply (bool_decide_unpack _). vm_compute. exact I. Qed.

Lemma png_ascii : ascii_string (js "png") ∧ no_separator (js "png").
Proof. split; repeat constructor; by vm_compute. Qed.

Lemma truncation_keeps_ascii_prefix_witness :
  path_basename (truncated_withoutExt 100 longer_path)
  = take 100 (path_basename longer_path)
  ∧ Buffer_byteLength (path_basename (truncated_withoutExt 100 longer_path))
    = Z.min 100 (Buffer_byteLength (path_basename longer_path))
  ∧ truncated_withoutExt 100 (truncated_withoutExt 100 longer_path)
    = truncated_withoutExt 100 longer_path.
Proof.
  apply (truncation_keeps_ascii_prefix 100 longer_path);
    [exact longer_path_ascii | lia].
Defined.

Lemma ascii_name_within_budget_witness :
  let p := js "/s/" ++ replicate 250 97 ++ js ".png" in
  let o := ensureSafePath accept_all 5 fresh_world longer_path (js "png")
             false 0 in
  let w' := world_or fresh_world o in
  o = Resolved p w'
  ∧ Buffer_byteLength (path_basename p) ≤ maxSafeBytes w'
  ∧ maxSafeBytes w' ≤ maxSafeBytes fresh_world.
Proof.
  intros p o w'.
  assert (Hres : o = Resolved p w') by reflexivity.
  split; [exact Hres|].
  apply (ascii_name_within_budget accept_all 5 fresh_world longer_path
           (js "png") false 0 p w' Hres).
  - exact longer_path_ascii.
  - exact (proj1 png_ascii).
  - exact (proj2 png_ascii).
  - apply (bool_decide_unpack _). vm_compute. exact I.
Defined.

Lemma name_limit_is_discovered_witness :
  ∃ (p : jsstring) (w' : World),
    ensureSafePath (name_max 200) 60 after_two_runs longer_path (js "png")
      false 0
    = Resolved p w'
    ∧ path_basename p = replicate 196 97 ++ js ".png"
    ∧ Buffer_byteLength (path_basename p) = 200
    ∧ maxSafeBytes w' = 200
    ∧ Z.of_nat
        (recoveries (name_max 200) 60 after_two_runs longer_path (js "png")
           false 0)
      = 54.
Proof.
  destruct (name_limit_is_discovered 200 60 after_two_runs longer_path
              (js "png") false 0)
    as (p & w' & Hres & Hbase & Hlen & Hbudget & Hrec).
  - exact longer_path_ascii.
  - exact (proj1 png_ascii).
  - exact (proj2 png_ascii).
  - by vm_compute.
  - apply (bool_decide_unpack _). vm_compute. exact I.
  - vm_compute. discriminate.
  - vm_compute. discriminate.
  - vm_compute. reflexivity.
  - vm_compute. lia.
  - exists p, w'. split; [exact Hres|].
    split; [rewrite Hbase; vm_compute; reflexivity|].
    split; [exact Hlen|]. split; [exact Hbudget | exact Hrec].
Defined.

(* ===================================================================== *)
(** * Budgets at and below zero *)
(* ===================================================================== *)

Lemma Buffer_byteLength_positive (s : jsstring) :
  s ≠ [] → 0 < Buffer_byteLength s.
Proof.
  destruct s as [|c s]; [done|]. intros _.
  unfold Buffer_byteLength, byteLength. rewrite Buffer_from_unfold.
  pose proof (utf8_of_cp_length c).
  pose proof (utf8_of_cp_length REPLACEMENT).
  repeat case_match; rewrite ?length_app;
    try match goal with
        | |- context [utf8_of_cp ?x] => pose proof (utf8_of_cp_length x)
        end; lia.
Qed.

Lemma long_segment_not_dots (t : jsstring) :
  (3 ≤ length t)%nat → t ≠ [] ∧ t ≠ js "." ∧ t ≠ js "..".
Proof.
  intros Hlen.
  split; [|split]; intros ->; vm_compute in Hlen; lia.
Qed.

Lemma truncated_negative_ascii (limit : Z) (W : jsstring) :
  ascii_string (path_basename W) →
  limit < 0 →
  3 ≤ Buffer_byteLength (path_basename W) + limit →
  path_basename (truncated_withoutExt limit W)
  = take (Z.to_nat (Buffer_byteLength (path_basename W) + limit))
      (path_basename W)
  ∧ Buffer_byteLength (path_basename (truncated_withoutExt limit W))
    = Buffer_byteLength (path_basename W) + limit.
Proof.
  intros Hascii Hneg Hkeep.
  pose proof (Buffer_byteLength_ascii _ Hascii) as Hlen.
  unfold str_length in Hlen.
  set (k := Buffer_byteLength (path_basename W) + limit) in *.
  set (t := take (Z.to_nat k) (path_basename W)).
  assert (Ht_ascii : ascii_string t) by by apply ascii_string_take.
  assert (Ht_len : Z.of_nat (length t) = k).
  { unfold t. rewrite length_take_le; lia. }
  assert (Htrunc : truncated_withoutExt limit W
                   = path_join [path_dirname W; t]).
  { unfold truncated_withoutExt, Buffer_slice0.
    fold (Buffer_byteLength (path_basename W)).
    replace (limit <? Buffer_byteLength (path_basename W)) with true by lia.
    replace (limit <? 0) with true by lia.
    rewrite (Buffer_from_ascii (path_basename W)) by done.
    fold k. fold t. by rewrite Buffer_toString_ascii. }
  assert (Hplain : plain_segment t).
  { split; [apply Forall_take, path_basename_no_separator|].
    apply long_segment_not_dots. lia. }
  assert (Hbase : path_basename (truncated_withoutExt limit W) = t).
  { rewrite Htrunc. pose proof Hplain as (Hsep & Hne & _).
    destruct (path_join_last_segment (path_dirname W) t)
      as [-> | [parent ->]]; [apply path_dirname_nonempty|done| |].
    - by apply path_basename_plain.
    - by apply path_basename_last_segment. }
  split; [done|].
  rewrite Hbase, Buffer_byteLength_ascii by done. exact Ht_len.
Qed.

(** X11. A prefix budget below zero cuts from the end.  When [maxSafeBytes]
    is smaller than the suffix, the budget handed to [slice] is negative
    and counts from the end of the buffer: an ASCII base name loses its
    last bytes, as many as the budget is below zero, and keeps the rest
    (at least three bytes here), which is more than the budget. *)
Theorem negative_budget_cuts_from_the_end w W ext ov num :
  let limit := maxSafePrefixBytes w ext ov num in
  let base := path_basename W in
  ascii_string base →
  limit < 0 →
  3 ≤ Buffer_byteLength base + limit →
  path_basename (truncated_withoutExt limit W)
  = take (Z.to_nat (Buffer_byteLength base + limit)) base
  ∧ Buffer_byteLength (path_basename (truncated_withoutExt limit W))
    = Buffer_byteLength base + limit
  ∧ limit < Buffer_byteLength (path_basename (truncated_withoutExt limit W)).
Proof.
  intros limit base Hascii Hneg Hkeep.
  destruct (truncated_negative_ascii limit W Hascii Hneg Hkeep)
    as [Hbase Hlen].
  split; [done|]. split; [done|]. rewrite Hlen.
  unfold base in *. clearbody limit. lia.
Qed.

(** X12. A prefix budget of zero, or one so far below zero that the cut
    leaves no byte, drops the base name: the candidate is the normalized
    directory of the path followed by the suffix, a file beside the folder
    the screenshot was meant for. *)
Theorem exhausted_budget_drops_the_name w W ext ov num :
  let limit := maxSafePrefixBytes w ext ov num in
  path_basename W ≠ [] →
  limit = 0 ∨ limit ≤ - Buffer_byteLength (path_basename W) →
  fullPath w W ext ov num
  = path_normalize (path_dirname W) ++ suffix ext ov num.
Proof.
  intros limit Hbase Hlimit.
  pose proof (Buffer_byteLength_positive _ Hbase) as Hpos.
  unfold fullPath. fold limit. f_equal.
  unfold truncated_withoutExt.
  fold (Buffer_byteLength (path_basename W)).
  replace (limit <? Buffer_byteLength (path_basename W)) with true by lia.
  assert (Hslice : Buffer_slice0 (Buffer_from (path_basename W)) limit = []).
  { unfold Buffer_slice0. fold (Buffer_byteLength (path_basename W)).
    destruct (limit <? 0) eqn:Hneg.
    - apply Z.ltb_lt in Hneg.
      replace (Z.to_nat (Buffer_byteLength (path_basename W) + limit))
        with 0%nat by lia. done.
    - apply Z.ltb_ge in Hneg. by replace limit with 0 by lia. }
  rewrite Hslice. change (Buffer_toString []) with (@nil Z).
  unfold path_join.
  rewrite filter_cons_True by apply path_dirname_nonempty.
  by rewrite filter_cons_False, filter_nil by (by intros Hne; apply Hne).
Qed.

Lemma negative_budget_cuts_from_the_end_witness :
  let w := {| maxSafeBytes := 2; files := ∅ |} in
  maxSafePrefixBytes w (js "png") false 0 = -2
  ∧ path_basename
      (truncated_withoutExt (maxSafePrefixBytes w (js "png") false 0)
         (js "/s/screenshot"))
    = js "screensh"
  ∧ fullPath w (js "/s/screenshot") (js "png") false 0 = js "/s/screensh.png".
Proof.
  intros w. split; [reflexivity|].
  destruct (negative_budget_cuts_from_the_end w (js "/s/screenshot")
              (js "png") false 0) as (Hbase & _ & _).
  - apply (bool_decide_unpack _). vm_compute. exact I.
  - vm_compute. reflexivity.
  - vm_compute. discriminate.
  - split; [rewrite Hbase; vm_compute; reflexivity | vm_compute; reflexivity].
Defined.

Lemma exhausted_budget_drops_the_name_witness :
  let w := {| maxSafeBytes := 4; files := ∅ |} in
  maxSafePrefixBytes w (js "png") false 0 = 0
  ∧ fullPath w (js "/shots/spec/name") (js "png") false 0
    = js "/shots/spec.png".
Proof.
  intros w. split; [reflexivity|].
  rewrite (exhausted_budget_drops_the_name w (js "/shots/spec/name")
             (js "png") false 0).
  - vm_compute. reflexivity.
  - vm_compute. discriminate.
  - left. reflexivity.
Defined.
